(** * khp.contacts: the incremental contacts / transcripts pipeline

  A shallow embedding of [src/khp/contacts.py] and of the properties its
  specification states about it.

  Layout:
  - [PyStr]    : the string operations the module uses ([split], [replace],
                 [int], [os.path.basename], [str.format] of integers);
  - [Regex]    : the two filename patterns, with a derivative matcher;
  - [Dates]    : [datetime], [timedelta] and [strftime];
  - [PyDict]   : insertion-ordered dictionaries;
  - [Pipeline] : the world (artifact store, relations, trace), the
                 exception/state monad, and the functions of contacts.py;
  - the theorems.

  Strings are ASCII strings; identifiers are integers (the [contact_id]
  column). *)

From Stdlib Require Import ZArith Ascii String List Floats.SpecFloat.
From stdpp Require Import base tactics option list gmap sets strings pretty.

Local Open Scope Z_scope.

(* ===================================================================== *)
(** ** Python string operations *)
(* ===================================================================== *)

Module PyStr.

(** [s.replace(c, '')] for a one-character [c]: every occurrence goes. *)
Fixpoint remove_char (c : ascii) (s : string) : string :=
  match s with
  | EmptyString => EmptyString
  | String a s' =>
      if Ascii.eqb a c then remove_char c s' else String a (remove_char c s')
  end.

(** Does character [c] occur in [s]? *)
Fixpoint occurs (c : ascii) (s : string) : bool :=
  match s with
  | EmptyString => false
  | String a s' => Ascii.eqb a c || occurs c s'
  end.

(** [s.split(sep)[0]]: the text before the first occurrence of [sep]
    (all of [s] when [sep] does not occur). [sep] is never empty here. *)
Fixpoint split_first (sep s : string) : string :=
  if String.prefix sep s then EmptyString
  else match s with
       | EmptyString => EmptyString
       | String a s' => String a (split_first sep s')
       end.

(** [os.path.basename]: the text after the last ['/']. *)
Fixpoint basename_go (acc s : string) : string :=
  match s with
  | EmptyString => acc
  | String a s' =>
      if Ascii.eqb a "/" then basename_go EmptyString s'
      else basename_go (acc +:+ String a EmptyString) s'
  end.
Definition basename (p : string) : string := basename_go EmptyString p.

(** [os.path.join(d, f)] for a relative [f]. *)
Definition path_join (d f : string) : string :=
  if String.eqb d "" then f
  else if String.eqb (String.substring (String.length d - 1)%nat 1 d) "/"
       then d +:+ f else d +:+ "/" +:+ f.

Fixpoint lstrip (s : string) : string :=
  match s with
  | String a s' => if Ascii.is_space a then lstrip s' else s
  | EmptyString => EmptyString
  end.
Definition strip (s : string) : string :=
  String.rev (lstrip (String.rev (lstrip s))).

(** Digits of an integer literal: decimal digits, single underscores
    allowed between digits. [prev] tells whether the previous character
    was a digit. *)
Fixpoint digits_val (acc : Z) (prev : bool) (s : string) : option Z :=
  match s with
  | EmptyString => if prev then Some acc else None
  | String a s' =>
      match Ascii.is_nat a with
      | Some d => digits_val (10 * acc + Z.of_nat d) true s'
      | None =>
          if Ascii.eqb a "_" && prev then digits_val acc false s' else None
      end
  end.

(** [int(s)]: [None] stands for [ValueError]. *)
Definition py_int (s : string) : option Z :=
  match strip s with
  | String "-" s' => Z.opp <$> digits_val 0 false s'
  | String "+" s' => digits_val 0 false s'
  | s' => digits_val 0 false s'
  end.

(** ['{}'.format(n)] and [str(n)] for an integer. *)
Definition str_of_int (n : Z) : string := pretty n.

(** [','.join(l)] *)
Fixpoint join (sep : string) (l : list string) : string :=
  match l with
  | [] => ""
  | [x] => x
  | x :: l' => x +:+ sep +:+ join sep l'
  end.

End PyStr.

(* ===================================================================== *)
(** ** Regular expressions (the fragment of [re] the patterns use) *)
(* ===================================================================== *)

Module Regex.

Inductive regex : Type :=
| Void                          (* matches nothing (for derivatives) *)
| Eps                           (* the empty string *)
| Chr (c : ascii)               (* a literal character *)
| Any                           (* [.]  : any character but newline *)
| Digit                         (* [\d] *)
| Word                          (* [\w] *)
| Seq (r1 r2 : regex)
| Alt (r1 r2 : regex)
| Star (r : regex).

Definition is_digit (c : ascii) : bool :=
  let n := N_of_ascii c in (48 <=? n)%N && (n <=? 57)%N.
Definition is_word (c : ascii) : bool :=
  let n := N_of_ascii c in
  is_digit c || ((65 <=? n)%N && (n <=? 90)%N)
  || ((97 <=? n)%N && (n <=? 122)%N) || (n =? 95)%N.

Fixpoint nullable (r : regex) : bool :=
  match r with
  | Void | Chr _ | Any | Digit | Word => false
  | Eps | Star _ => true
  | Seq r1 r2 => nullable r1 && nullable r2
  | Alt r1 r2 => nullable r1 || nullable r2
  end.

Fixpoint deriv (c : ascii) (r : regex) : regex :=
  match r with
  | Void | Eps => Void
  | Chr a => if Ascii.eqb a c then Eps else Void
  | Any => if (N_of_ascii c =? 10)%N then Void else Eps
  | Digit => if is_digit c then Eps else Void
  | Word => if is_word c then Eps else Void
  | Seq r1 r2 =>
      if nullable r1 then Alt (Seq (deriv c r1) r2) (deriv c r2)
      else Seq (deriv c r1) r2
  | Alt r1 r2 => Alt (deriv c r1) (deriv c r2)
  | Star r1 => Seq (deriv c r1) (Star r1)
  end.

(** [re.match(r, s)] is not [None]: some prefix of [s] is in the language
    of [r]. A leading [^] adds nothing to [re.match]. *)
Fixpoint re_match (r : regex) (s : string) : bool :=
  nullable r ||
  match s with
  | EmptyString => false
  | String c s' => re_match (deriv c r) s'
  end.

Fixpoint lit (s : string) : regex :=
  match s with
  | EmptyString => Eps
  | String c s' => Seq (Chr c) (lit s')
  end.
Definition opt (r : regex) : regex := Alt r Eps.
Fixpoint rep (n : nat) (r : regex) : regex :=
  match n with O => Eps | S n' => Seq r (rep n' r) end.

(** [r"^\w*_\d{4}-\d{1,2}-\d{1,2}_\w*"] *)
Definition contacts_reg : regex :=
  Seq (Star Word) (Seq (Chr "_") (Seq (rep 4 Digit) (Seq (Chr "-")
    (Seq (Seq Digit (opt Digit)) (Seq (Chr "-")
      (Seq (Seq Digit (opt Digit)) (Seq (Chr "_") (Star Word)))))))).

(** [r"^\d*_data.txt"]: the dot is the regex dot. *)
Definition transcripts_reg : regex :=
  Seq (Star Digit) (Seq (lit "_data") (Seq Any (lit "txt"))).

End Regex.

(* ===================================================================== *)
(** ** Dates: [datetime], [timedelta], [strftime] *)
(* ===================================================================== *)

Module Dates.

(** A [datetime]: the day, counted from 1970-01-01, and the microseconds
    elapsed since midnight of that day. *)
Record datetime : Type := mkDatetime { day : Z; micros : Z }.

(** A [timedelta] is a number of microseconds. *)
Definition timedelta : Type := Z.
Definition usec_per_day : Z := 86400000000.
Definition days (n : Z) : timedelta := n * usec_per_day.
Definition milliseconds (n : Z) : timedelta := n * 1000.

Definition dt_add (t : datetime) (d : timedelta) : datetime :=
  let total := day t * usec_per_day + micros t + d in
  mkDatetime (total / usec_per_day) (total mod usec_per_day).
Definition dt_sub (t : datetime) (d : timedelta) : datetime := dt_add t (- d).

Definition midnight (d : Z) : datetime := mkDatetime d 0.

(** Civil date of a day number (proleptic Gregorian calendar). *)
Definition civil_from_days (z0 : Z) : Z * Z * Z :=
  let z := z0 + 719468 in
  let era := z / 146097 in
  let doe := z - era * 146097 in
  let yoe := (doe - doe / 1460 + doe / 36524 - doe / 146096) / 365 in
  let y := yoe + era * 400 in
  let doy := doe - (365 * yoe + yoe / 4 - yoe / 100) in
  let mp := (5 * doy + 2) / 153 in
  let d := doy - (153 * mp + 2) / 5 + 1 in
  let m := if mp <? 10 then mp + 3 else mp - 9 in
  (if m <=? 2 then y + 1 else y, m, d).

Definition days_from_civil (y0 m d : Z) : Z :=
  let y := if m <=? 2 then y0 - 1 else y0 in
  let era := y / 400 in
  let yoe := y - era * 400 in
  let doy := (153 * (if 2 <? m then m - 3 else m + 9) + 2) / 5 + d - 1 in
  let doe := yoe * 365 + yoe / 4 - yoe / 100 + doy in
  era * 146097 + doe - 719468.

(** Decimal rendering of [n >= 0], left-padded with zeros to [w] digits. *)
Fixpoint zeros (n : nat) : string :=
  match n with O => "" | S n' => "0" +:+ zeros n' end.
Definition pad (w : nat) (n : Z) : string :=
  let s := PyStr.str_of_int n in
  zeros (w - String.length s)%nat +:+ s.

(** [t.strftime("%Y-%m-%d")] *)
Definition strftime_date (t : datetime) : string :=
  let '(y, m, d) := civil_from_days (day t) in
  pad 4 y +:+ "-" +:+ pad 2 m +:+ "-" +:+ pad 2 d.

(** The ["%H:%M:%S.%f"] part. *)
Definition strftime_time (us : Z) : string :=
  let s := us / 1000000 in
  pad 2 (s / 3600) +:+ ":" +:+ pad 2 ((s / 60) mod 60) +:+ ":" +:+
  pad 2 (s mod 60) +:+ "." +:+ pad 6 (us mod 1000000).

(** [t.strftime('%Y-%m-%dT%H:%M:%S.%f')] *)
Definition strftime_tm (t : datetime) : string :=
  strftime_date t +:+ "T" +:+ strftime_time (micros t).

Definition is_leap (y : Z) : bool :=
  ((y mod 4 =? 0) && negb (y mod 100 =? 0)) || (y mod 400 =? 0).
Definition days_in_month (y m : Z) : Z :=
  if m =? 2 then (if is_leap y then 29 else 28)
  else if (m =? 4) || (m =? 6) || (m =? 9) || (m =? 11) then 30 else 31.

(** The three ['-']-separated fields of a [YYYY-mm-dd] string. *)
Fixpoint fields_go (cur : string) (s : string) : list string :=
  match s with
  | EmptyString => [cur]
  | String a s' =>
      if Ascii.eqb a "-" then cur :: fields_go "" s'
      else fields_go (cur +:+ String a EmptyString) s'
  end.

(** Modelled from the spec: the date parser behind
    [utils.generate_date_range], which is not in the source tree. Dates
    have day granularity and the form [YYYY-mm-dd]; [None] stands for the
    error raised on anything else. *)
Definition parse_date (s : string) : option datetime :=
  match fields_go "" s with
  | [ys; ms; ds] =>
      y ← PyStr.digits_val 0 false ys;
      m ← PyStr.digits_val 0 false ms;
      d ← PyStr.digits_val 0 false ds;
      if (1 <=? y) && (y <=? 9999) && (1 <=? m) && (m <=? 12)
         && (1 <=? d) && (d <=? days_in_month y m)
      then Some (midnight (days_from_civil y m d)) else None
  | _ => None
  end.

(** Modelled from the spec: [utils.generate_date_range], which is not in
    the source tree. The range from [start_date] to [end_date] is split
    into whole days: one [datetime], at midnight, for each calendar day
    from the first to the last, both included. *)
Definition generate_date_range (start_date end_date : string)
  : option (list datetime) :=
  s ← parse_date start_date;
  e ← parse_date end_date;
  Some ((λ i : nat, midnight (day s + Z.of_nat i))
          <$> seq 0 (Z.to_nat (day e - day s + 1))).

End Dates.

(* ===================================================================== *)
(** ** Values and dictionaries *)
(* ===================================================================== *)

(** The scalar values a flat row holds. *)
Inductive scalar : Type :=
| SNone
| SBool (b : bool)
| SInt (n : Z)
| SFloat (f : spec_float)
| SStr (s : string).

(** The raw nested payload of an interaction record. *)
#[local] Set Warnings "-register-all".
Inductive json : Type :=
| JNull
| JBool (b : bool)
| JInt (n : Z)
| JStr (s : string)
| JList (l : list json)
| JObj (kvs : list (string * json)).

Module PyDict.

(** A [dict] with string keys: its items in insertion order. *)
Definition dict (V : Type) : Type := list (string * V).

Section Ops.
Context {V : Type}.

Fixpoint get (k : string) (d : dict V) : option V :=
  match d with
  | [] => None
  | (k', v) :: d' => if String.eqb k' k then Some v else get k d'
  end.

(** [d[k] = v]: in place when [k] is present, at the end otherwise. *)
Fixpoint set (k : string) (v : V) (d : dict V) : dict V :=
  match d with
  | [] => [(k, v)]
  | (k', v') :: d' =>
      if String.eqb k' k then (k', v) :: d' else (k', v') :: set k v d'
  end.

Definition keys (d : dict V) : list string := d.*1.
Definition values (d : dict V) : list V := d.*2.

(** A dictionary holds each key once. *)
Definition wf (d : dict V) : Prop := NoDup (keys d).

(** [[d[key] for key in columns]]; [inl k] is [KeyError(k)]. *)
Fixpoint project (columns : list string) (d : dict V) : string + list V :=
  match columns with
  | [] => inr []
  | k :: ks =>
      match get k d with
      | None => inl k
      | Some v =>
          match project ks d with
          | inl e => inl e
          | inr vs => inr (v :: vs)
          end
      end
  end.

End Ops.
End PyDict.

(* ===================================================================== *)
(** ** The pipeline of contacts.py *)
(* ===================================================================== *)

Module Pipeline.
Import PyDict.

(** A flat row: column name to scalar value. *)
Abbreviation row := (dict scalar).

(** A transcript as the interaction service returns it; [ContactID] is
    [transcript['Value']['ContactID']]. *)
Record transcript : Type := mkTranscript { ContactID : Z; payload : json }.

(** What a JSON artifact holds: the list of contacts of one day, or one
    transcript. *)
Inductive artifact : Type :=
| ContactsFile (contacts : list json)
| TranscriptFile (t : transcript).

Inductive exn : Type :=
| Exception (msg : string)
| IndexError
| KeyError (k : string)
| ValueError (s : string)
| FileNotFoundError (path : string)
| TypeError
| UndefinedTable (table : string).

(** The messages contacts.py logs, one constructor per call site. *)
Inductive log_record : Type :=
| WarnNoContactIds                       (* "No contact ids to parse. Exiting.." *)
| InfoAttempting (n : nat)               (* "Attempting to process %s contact ids" *)
| WarnMissingTranscripts (missing : list Z)   (* 'Missing transcripts %s' *)
| InfoParsingContactFile (filename : string)
| WarnEmptyContactsFile                  (* "Empty contacts file. Exiting.." *)
| InfoParsingTranscriptFile (filename : string)
| InfoTranscriptsToLoad (n : nat)        (* "%s transcripts to parse and load" *)
| InfoLoadingTranscripts (contact_ids : list Z)
| InfoProcessingTranscript (contact_id : Z)
| WarnProvideBothDates.                  (* "Provide both start_date and end_date. Exiting.." *)

(** What the module does to the outside, in the order it does it. *)
Inductive event : Type :=
| GetContacts (interaction_type : string) (window : option (string * string))
| GetRecordings (contact_ids : list Z)
| WriteJson (filepath : string) (data : artifact)
| DbLoad (table_name : string) (columns : list string) (data : list (list scalar))
| DbMarkDownloaded (contact_ids : list Z)
| Log (r : log_record).

(** The artifact store, the three relations, and the trace. *)
Record world : Type := mkWorld {
  fs : gmap string artifact;
  db_contacts : list row;
  db_transcripts : list row;
  db_enhanced_transcripts : list row;
  trace : list event
}.

(** The collaborators and the configuration: the interaction service, the
    [Transformer] of each configured pipeline kind, the storage's ordering
    of the [dt] column, the output directory and the clock. *)
Record env : Type := mkEnv {
  ICESCAPE_OUTPUT_DIR : string;
  now : Dates.datetime;
  ice_get_contacts : string → option (string * string) → list json;
  ice_get_recordings : list Z → list transcript;
  (* Transformer(TRANSFORMS["contacts"]).run_transforms *)
  contacts_transforms : json → row;
  (* Transformer(TRANSFORMS["recording"]).run_transforms(t)['messages'] *)
  recording_messages : transcript → list row;
  (* Transformer(TRANSFORMS["transcripts"]).run_df_transforms *)
  transcripts_df_transforms : list row → list row;
  (* Transformer(TRANSFORMS["transcript_summary"]).run_meta_df_transforms *)
  transcript_summary : list row → row;
  dt_leb : scalar → scalar → bool
}.

(** *** The monad: state, and exceptions that keep the state *)

Inductive result (A : Type) : Type :=
| Ok (a : A) (w : world)
| Raise (e : exn) (w : world).
Arguments Ok {A} a w.
Arguments Raise {A} e w.

Definition M (A : Type) : Type := world → result A.

Definition ret {A} (a : A) : M A := λ w, Ok a w.
Definition bind {A B} (m : M A) (k : A → M B) : M B :=
  λ w, match m w with
       | Ok a w' => k a w'
       | Raise e w' => Raise e w'
       end.
Definition raise {A} (e : exn) : M A := λ w, Raise e w.
Definition gets {A} (f : world → A) : M A := λ w, Ok (f w) w.

#[global] Instance M_ret : MRet M := @ret.
#[global] Instance M_bind : MBind M := λ A B k m, bind m k.

Fixpoint for_each {A} (l : list A) (body : A → M unit) : M unit :=
  match l with
  | [] => ret tt
  | x :: l' => body x ;; for_each l' body
  end.

Definition final {A} (r : result A) : world :=
  match r with Ok _ w => w | Raise _ w => w end.

(** *** Effects *)

Definition emit (e : event) : M unit :=
  λ w, Ok tt (mkWorld (fs w) (db_contacts w) (db_transcripts w)
                      (db_enhanced_transcripts w) (trace w ++ [e])).

Definition log (r : log_record) : M unit := emit (Log r).

(** [utils.write_jason(data, filepath)] *)
Definition write_jason (data : artifact) (filepath : string) : M unit :=
  λ w, Ok tt (mkWorld (<[filepath := data]> (fs w)) (db_contacts w)
                      (db_transcripts w) (db_enhanced_transcripts w)
                      (trace w ++ [WriteJson filepath data])).

(** [utils.read_jason(filepath)] *)
Definition read_jason (filepath : string) : M artifact :=
  λ w, match fs w !! filepath with
       | Some a => Ok a w
       | None => Raise (FileNotFoundError filepath) w
       end.

(** [postgrez.load(table_name, data, columns)]: one row per element of
    [data], appended to the relation. *)
Definition make_row (columns : list string) (values : list scalar) : row :=
  zip columns values.

Definition postgrez_load (table_name : string) (data : list (list scalar))
    (columns : list string) : M unit :=
  λ w,
    let rows := make_row columns <$> data in
    let tr := trace w ++ [DbLoad table_name columns data] in
    if String.eqb table_name "contacts" then
      Ok tt (mkWorld (fs w) (db_contacts w ++ rows) (db_transcripts w)
                     (db_enhanced_transcripts w) tr)
    else if String.eqb table_name "transcripts" then
      Ok tt (mkWorld (fs w) (db_contacts w) (db_transcripts w ++ rows)
                     (db_enhanced_transcripts w) tr)
    else if String.eqb table_name "enhanced_transcripts" then
      Ok tt (mkWorld (fs w) (db_contacts w) (db_transcripts w)
                     (db_enhanced_transcripts w ++ rows) tr)
    else Raise (UndefinedTable table_name) w.

Definition row_contact_id (r : row) : option Z :=
  match get "contact_id" r with Some (SInt n) => Some n | _ => None end.

(** [UPDATE contacts SET transcript_downloaded=TRUE
     WHERE contact_id IN (...)] *)
Definition contact_id_in (ids : list Z) (r : row) : bool :=
  match row_contact_id r with
  | Some n => bool_decide (n ∈ ids)
  | None => false
  end.
Definition mark_row (ids : list Z) (r : row) : row :=
  if contact_id_in ids r then set "transcript_downloaded" (SBool true) r else r.

Definition mark_downloaded (ids : list Z) : M unit :=
  λ w, Ok tt (mkWorld (fs w) (mark_row ids <$> db_contacts w)
                      (db_transcripts w) (db_enhanced_transcripts w)
                      (trace w ++ [DbMarkDownloaded ids])).

(** [SELECT contact_id FROM contacts WHERE transcript_downloaded=FALSE
     AND agent_id IS NOT NULL] *)
Definition is_pending (r : row) : bool :=
  match get "transcript_downloaded" r, get "agent_id" r with
  | Some (SBool false), Some SNone => false
  | Some (SBool false), Some _ => true
  | _, _ => false
  end.
Definition select_pending_contact_ids (w : world) : list Z :=
  omap row_contact_id (filter (λ r, is_pending r = true) (db_contacts w)).

(** [SELECT load_file FROM contacts GROUP BY 1], the string values. *)
Definition row_load_file (r : row) : option string :=
  match get "load_file" r with Some (SStr s) => Some s | _ => None end.
Definition select_load_files (w : world) : list string :=
  remove_dups (omap row_load_file (db_contacts w)).

(** [SELECT contact_id FROM transcripts GROUP BY 1] *)
Definition select_transcript_contact_ids (w : world) : list Z :=
  remove_dups (omap row_contact_id (db_transcripts w)).

(** [SELECT contact_id FROM transcripts WHERE contact_id NOT IN
     (SELECT contact_id FROM enhanced_transcripts) GROUP BY 1] *)
Definition select_unenhanced_contact_ids (w : world) : list Z :=
  filter (λ n, n ∉ omap row_contact_id (db_enhanced_transcripts w))
         (select_transcript_contact_ids w).

(** *** Helpers of [khp.utils] *)

(** Modelled from the spec: [utils.chunker], which is not in the source
    tree. The identifiers are split into consecutive chunks of [size]
    elements (the last one may be shorter); [size] is positive. *)
Fixpoint chunker_go {A} (fuel : nat) (seq : list A) (size : nat) : list (list A) :=
  match fuel, seq with
  | S fuel', _ :: _ => take size seq :: chunker_go fuel' (drop size seq) size
  | _, _ => []
  end.
Definition chunker {A} (seq : list A) (size : nat) : list (list A) :=
  chunker_go (length seq) seq size.

(** Modelled from the spec: [utils.search_path], which is not in the source
    tree. It lists the files of directory [path] whose name matches one of
    the patterns, as full paths. *)
Definition in_directory (path file : string) : bool :=
  String.eqb (PyStr.path_join path (PyStr.basename file)) file.
Definition search_path (path : string) (like : list Regex.regex) (w : world)
  : list string :=
  filter (λ file, in_directory path file = true ∧
                  existsb (λ r, Regex.re_match r (PyStr.basename file)) like = true)
         (map_to_list (fs w)).*1.

(** [pd.isnull] on a scalar. *)
Definition isnull (v : scalar) : bool :=
  match v with
  | SNone => true
  | SFloat S754_nan => true
  | _ => false
  end.

(** A string argument that is neither [None] nor empty. *)
Definition truthy (s : option string) : bool :=
  match s with
  | Some s' => negb (String.eqb s' "")
  | None => false
  end.

(** Stable insertion sort, for [ORDER BY]. *)
Fixpoint insert_by {A} (leb : A → A → bool) (x : A) (l : list A) : list A :=
  match l with
  | [] => [x]
  | y :: l' => if leb x y then x :: l else y :: insert_by leb x l'
  end.
Definition sort_by {A} (leb : A → A → bool) (l : list A) : list A :=
  foldr (insert_by leb) [] l.

Section Contacts.
Variable E : env.

(** *** contacts.py *)

Definition save_data (data : artifact) (filename : string) : M unit :=
  let filepath := PyStr.path_join (ICESCAPE_OUTPUT_DIR E) filename in
  write_jason data filepath.

Definition contacts_filename (interaction_type : string) (dt : Dates.datetime)
  : string :=
  interaction_type +:+ "_" +:+ Dates.strftime_date dt +:+ "_contacts.txt".

Definition get_contacts (interaction_type : string)
    (window : option (string * string)) : M (list json) :=
  emit (GetContacts interaction_type window);;
  mret (ice_get_contacts E interaction_type window).

Definition get_recordings (contact_ids : list Z) : M (list transcript) :=
  emit (GetRecordings contact_ids);;
  mret (ice_get_recordings E contact_ids).

(** The body of the loop over [date_range]. *)
Definition download_day (interaction_type : string) (start_dt : Dates.datetime)
  : M unit :=
  let end_dt := Dates.dt_sub (Dates.dt_add start_dt (Dates.days 1))
                             (Dates.milliseconds 1) in
  contact_data ← get_contacts interaction_type
                   (Some (Dates.strftime_tm start_dt, Dates.strftime_tm end_dt));
  let filename := contacts_filename interaction_type start_dt in
  save_data (ContactsFile contact_data) filename.

(** The [else] branch: the service's default window, filed under yesterday. *)
Definition download_default (interaction_type : string) : M unit :=
  contact_data ← get_contacts interaction_type None;
  let start_dt := Dates.dt_sub (now E) (Dates.days 1) in
  save_data (ContactsFile contact_data)
            (contacts_filename interaction_type start_dt).

Definition download_contacts (interaction_type : string)
    (start_date end_date : option string) : M unit :=
  match start_date, end_date with
  | Some sd, Some ed =>
      if truthy start_date && truthy end_date then
        match Dates.generate_date_range sd ed with
        | Some date_range => for_each date_range (download_day interaction_type)
        | None => raise (ValueError (sd +:+ " " +:+ ed))
        end
      else download_default interaction_type
  | _, _ => download_default interaction_type
  end.

Definition transcript_filename (contact_id : Z) : string :=
  PyStr.str_of_int contact_id +:+ "_data.txt".

(** [set(chunked_contact_ids) - set(retrieved)], as a list. *)
Definition missing_ids (chunked_contact_ids : list Z) (transcripts : list transcript)
  : list Z :=
  let retrieved := ContactID <$> transcripts in
  elements ((list_to_set chunked_contact_ids : gset Z) ∖ list_to_set retrieved).

(** The body of the loop over the chunks. *)
Definition download_chunk (chunked_contact_ids : list Z) : M unit :=
  transcripts ← get_recordings chunked_contact_ids;
  (if bool_decide (length transcripts < length chunked_contact_ids)%nat then
     log (WarnMissingTranscripts (missing_ids chunked_contact_ids transcripts));;
     raise (Exception "Transcripts not returned for all contact ids")
   else mret tt);;
  for_each (zip chunked_contact_ids transcripts)
    (λ '(contact_id, transcript),
       save_data (TranscriptFile transcript) (transcript_filename contact_id));;
  mark_downloaded chunked_contact_ids.

Definition download_transcripts (contact_ids : option (list Z)) : M unit :=
  contact_ids ← match contact_ids with
                | None => gets select_pending_contact_ids
                | Some l => mret l
                end;
  match contact_ids with
  | [] => log WarnNoContactIds
  | _ =>
      log (InfoAttempting (length contact_ids));;
      for_each (chunker contact_ids 20) download_chunk
  end.

(** The three fields the caller sets on the transform's output. *)
Definition layer_metadata (interaction_type base_file : string)
    (contact_data : row) : row :=
  set "load_file" (SStr base_file)
    (set "transcript_downloaded" (SBool false)
      (set "interaction_type" (SStr interaction_type) contact_data)).

(** The list [parsed_contacts] that the loop over [contacts] builds. *)
Definition parsed_contacts (interaction_type base_file : string)
    (contacts : list json) : list row :=
  (λ contact, layer_metadata interaction_type base_file
                (contacts_transforms E contact)) <$> contacts.

(** [[[r[key] for key in columns] for r in rows]] *)
Fixpoint project_rows (columns : list string) (rows : list row)
  : string + list (list scalar) :=
  match rows with
  | [] => inr []
  | r :: rows' =>
      match project columns r with
      | inl k => inl k
      | inr vs =>
          match project_rows columns rows' with
          | inl k => inl k
          | inr vss => inr (vs :: vss)
          end
      end
  end.

Definition load_rows (table_name : string) (columns : list string)
    (rows : list row) (clean : list (list scalar) → list (list scalar)) : M unit :=
  match project_rows columns rows with
  | inl k => raise (KeyError k)
  | inr load_data => postgrez_load table_name (clean load_data) columns
  end.

Definition parse_contacts_file (filename : string) : M unit :=
  log (InfoParsingContactFile filename);;
  let base_file := PyStr.basename filename in
  let interaction_type := PyStr.split_first "_" base_file in
  data ← read_jason filename;
  match data with
  | TranscriptFile _ => raise TypeError
  | ContactsFile [] => log WarnEmptyContactsFile
  | ContactsFile contacts =>
      let parsed := parsed_contacts interaction_type base_file contacts in
      match parsed with
      | [] => raise IndexError
      | first :: _ => load_rows "contacts" (keys first) parsed id
      end
  end.

(** The nested loop that removes ['|'] from the strings of [load_data],
    cell by cell, in place. *)
Definition sanitize_cell (row : list scalar) (j : nat) (record : scalar)
  : list scalar :=
  match record with
  | SStr s => <[j := SStr (PyStr.remove_char "|" s)]> row
  | _ => row
  end.
Definition sanitize_row (row : list scalar) : list scalar :=
  foldl (λ acc '(j, record), sanitize_cell acc j record) row
        (zip (seq 0 (length row)) row).
Definition sanitize (load_data : list (list scalar)) : list (list scalar) :=
  foldl (λ acc '(i, row), <[i := sanitize_row row]> acc) load_data
        (zip (seq 0 (length load_data)) load_data).

Definition parse_transcript (filename : string) : M unit :=
  log (InfoParsingTranscriptFile filename);;
  data ← read_jason filename;
  match data with
  | ContactsFile _ => raise TypeError
  | TranscriptFile transcript =>
      let messages := recording_messages E transcript in
      match messages with
      | [] => raise IndexError
      | first :: _ => load_rows "transcripts" (keys first) messages sanitize
      end
  end.

Definition get_contacts_to_load : M (list string) :=
  loaded_files ← gets select_load_files;
  files ← gets (search_path (ICESCAPE_OUTPUT_DIR E) [Regex.contacts_reg]);
  let filenames := PyStr.basename <$> files in
  mret (elements ((list_to_set filenames : gset string) ∖ list_to_set loaded_files)).

(** [int(basename.split('_data.txt')[0])] *)
Definition contact_id_of_filename (basename : string) : option Z :=
  PyStr.py_int (PyStr.split_first "_data.txt" basename).

(** The loop over [filenames], appending to [to_load]; [inl] is the
    [ValueError] of [int]. *)
Fixpoint collect_to_load (loaded_contacts : list Z) (filenames : list string)
    (to_load : list string) : string + list string :=
  match filenames with
  | [] => inr to_load
  | file :: rest =>
      let basename := PyStr.basename file in
      match contact_id_of_filename basename with
      | None => inl basename
      | Some contact_id =>
          if bool_decide (contact_id ∉ loaded_contacts)
          then collect_to_load loaded_contacts rest (to_load ++ [basename])
          else collect_to_load loaded_contacts rest to_load
      end
  end.

Definition get_transcripts_to_load : M (list string) :=
  loaded_contacts ← gets select_transcript_contact_ids;
  files ← gets (search_path (ICESCAPE_OUTPUT_DIR E) [Regex.transcripts_reg]);
  let filenames := PyStr.basename <$> files in
  match collect_to_load loaded_contacts filenames [] with
  | inl s => raise (ValueError s)
  | inr to_load =>
      log (InfoTranscriptsToLoad (length to_load));;
      mret to_load
  end.

(** [ORDER BY contact_id, dt ASC] *)
Definition row_dt (r : row) : scalar := default SNone (get "dt" r).
Definition order_leb (r1 r2 : row) : bool :=
  let c1 := default 0 (row_contact_id r1) in
  let c2 := default 0 (row_contact_id r2) in
  (c1 <? c2) || ((c1 =? c2) && dt_leb E (row_dt r1) (row_dt r2)).

Definition load_transcripts_df (contact_ids : list Z) : M (list row) :=
  log (InfoLoadingTranscripts contact_ids);;
  gets (λ w, sort_by order_leb
               (filter (λ r, contact_id_in contact_ids r = true)
                       (db_transcripts w))).

Definition load_enhanced_transcript (contact_id : Z) (summary : row) : M unit :=
  let columns := keys summary in
  match project columns summary with
  | inl k => raise (KeyError k)
  | inr vs =>
      let load_data := [SInt contact_id :: vs] in
      let columns := "contact_id" :: columns in
      postgrez_load "enhanced_transcripts" load_data columns
  end.

(** The loop over [summary.items()], assigning [None] in place. *)
Definition replace_nans (summary : row) : row :=
  foldl (λ acc '(key, value), if isnull value then set key SNone acc else acc)
        summary summary.

(** One delayed chain: load, transform, summarise, clean, load. *)
Definition enhance (contact_id : Z) : M unit :=
  dataframe ← load_transcripts_df [contact_id];
  let dataframe := transcripts_df_transforms E dataframe in
  let summary := transcript_summary E dataframe in
  let summary := replace_nans summary in
  load_enhanced_transcript contact_id summary.

(** The chains are independent; they are run here one after the other, in
    the order of [to_load]. *)
Definition enhanced_transcripts : M unit :=
  to_load ← gets select_unenhanced_contact_ids;
  for_each to_load (λ contact_id, log (InfoProcessingTranscript contact_id));;
  for_each to_load enhance.

(** The stages of [main] up to and including the loading of contacts. *)
Definition contacts_stage (interaction_type : string)
    (start_date end_date : option string) : M unit :=
  download_contacts interaction_type start_date end_date;;
  contacts_to_load ← get_contacts_to_load;
  for_each contacts_to_load
    (λ contact_file,
       let full_path := PyStr.path_join (ICESCAPE_OUTPUT_DIR E) contact_file in
       parse_contacts_file full_path).

(** The stages of [main] after the test on [interaction_type]. *)
Definition transcripts_stage : M unit :=
  download_transcripts None;;
  transcripts_to_load ← get_transcripts_to_load;
  for_each transcripts_to_load
    (λ transcript_file,
       let full_path := PyStr.path_join (ICESCAPE_OUTPUT_DIR E) transcript_file in
       parse_transcript full_path);;
  enhanced_transcripts.

Definition main (interaction_type : string) (start_date end_date : option string)
  : M unit :=
  let '(start_date, end_date) :=
    match start_date, end_date with
    | None, None =>
        let yesterday := Dates.dt_sub (now E) (Dates.days 1) in
        let start_date := Dates.strftime_date yesterday in
        (Some start_date, Some start_date)
    | _, _ => (start_date, end_date)
    end in
  match start_date, end_date with
  | Some _, Some _ =>
      contacts_stage interaction_type start_date end_date;;
      if negb (String.eqb interaction_type "IM") then mret tt
      else transcripts_stage
  | _, _ => log WarnProvideBothDates
  end.

End Contacts.
End Pipeline.

(* ===================================================================== *)
(** ** Observations on traces, and what the specification expects *)
(* ===================================================================== *)

Import PyDict Pipeline.

(** The remote transcript calls of a trace, in order. *)
Definition recordings_calls (tr : list event) : list (list Z) :=
  omap (λ e, match e with GetRecordings ids => Some ids | _ => None end) tr.


(** The [transcript_downloaded] updates of a trace: one list of
    identifiers per executed [UPDATE]. *)
Definition marker_updates (tr : list event) : list (list Z) :=
  omap (λ e, match e with DbMarkDownloaded ids => Some ids | _ => None end) tr.

(** The artifacts written, as (path, content). *)
Definition saves (tr : list event) : list (string * artifact) :=
  omap (λ e, match e with WriteJson p d => Some (p, d) | _ => None end) tr.

(** The calls of the storage loader: (table, columns, rows). *)
Definition loads (tr : list event)
  : list (string * list string * list (list scalar)) :=
  omap (λ e, match e with DbLoad t c d => Some (t, c, d) | _ => None end) tr.

Definition logged (tr : list event) : list log_record :=
  omap (λ e, match e with Log r => Some r | _ => None end) tr.

(** The events a run added to the trace of the world it started from. *)
Definition new_events {A} (w : world) (r : result A) : list event :=
  drop (length (trace w)) (trace (final r)).

(** [ceil(n / 20)] *)
Definition ceil_div (n d : nat) : nat := ((n + (d - 1)) / d)%nat.

(** The chunk comes back short: fewer transcripts than identifiers. *)
Definition short (E : env) (chunk : list Z) : bool :=
  bool_decide (length (ice_get_recordings E chunk) < length chunk)%nat.

(** The path of the transcript artifact of an identifier. *)
Definition transcript_path (E : env) (contact_id : Z) : string :=
  PyStr.path_join (ICESCAPE_OUTPUT_DIR E) (transcript_filename contact_id).

(** The events of a chunk that comes back whole: the call, one artifact
    per identifier in request order, then the single marker update. *)
Definition chunk_events (E : env) (chunk : list Z) : list event :=
  GetRecordings chunk ::
  ((λ '(contact_id, t), WriteJson (transcript_path E contact_id) (TranscriptFile t))
     <$> zip chunk (ice_get_recordings E chunk))
  ++ [DbMarkDownloaded chunk].

(** The events of a chunk that comes back short: the call and the warning. *)
Definition short_events (E : env) (chunk : list Z) : list event :=
  [GetRecordings chunk;
   Log (WarnMissingTranscripts (missing_ids chunk (ice_get_recordings E chunk)))].

(** The events of a run over [chunks]: it stops at the first short chunk. *)
Fixpoint chunks_events (E : env) (chunks : list (list Z)) : list event :=
  match chunks with
  | [] => []
  | c :: cs =>
      if short E c then short_events E c
      else chunk_events E c ++ chunks_events E cs
  end.

(** The identifiers [download_transcripts] works on. *)
Definition resolve_contact_ids (contact_ids : option (list Z)) (w : world)
  : list Z :=
  match contact_ids with
  | None => select_pending_contact_ids w
  | Some l => l
  end.



(** A cell that still holds the load delimiter. *)
Definition has_delimiter (v : scalar) : bool :=
  match v with
  | SStr s => PyStr.occurs "|" s
  | _ => false
  end.

(** What sanitisation does to one cell. *)
Definition strip_delimiter (v : scalar) : scalar :=
  match v with
  | SStr s => SStr (PyStr.remove_char "|" s)
  | _ => v
  end.

(** The same, on every cell of every row. *)
Definition strip_rows (data : list (list scalar)) : list (list scalar) :=
  (λ row : list scalar, strip_delimiter <$> row) <$> data.

(** What [replace_nans] does to one value. *)
Definition denan (v : scalar) : scalar := if isnull v then SNone else v.

Definition is_nan (v : scalar) : bool :=
  match v with SFloat S754_nan => true | _ => false end.

(** The names of the files of the output directory that match a pattern. *)
Definition matching_names (E : env) (r : Regex.regex) (w : world) : list string :=
  PyStr.basename <$> search_path (ICESCAPE_OUTPUT_DIR E) [r] w.

(** The events of the stages that only run for ['IM']. *)
Definition transcript_stage_event (e : event) : bool :=
  match e with
  | GetRecordings _ | DbMarkDownloaded _ => true
  | DbLoad t _ _ => negb (String.eqb t "contacts")
  | WriteJson _ (TranscriptFile _) => true
  | Log (WarnNoContactIds) | Log (InfoAttempting _)
  | Log (WarnMissingTranscripts _) | Log (InfoParsingTranscriptFile _)
  | Log (InfoTranscriptsToLoad _) | Log (InfoLoadingTranscripts _)
  | Log (InfoProcessingTranscript _) => true
  | _ => false
  end.

(** The artifact store after the artifacts of [l] are written. *)
Definition save_transcripts (E : env) (l : list (Z * transcript))
    (m : gmap string artifact) : gmap string artifact :=
  foldl (λ m '(contact_id, t), <[transcript_path E contact_id := TranscriptFile t]> m)
        m l.

(** The world after a chunk that came back whole, and after a short one. *)
Definition chunk_world (E : env) (chunk : list Z) (w : world) : world :=
  mkWorld (save_transcripts E (zip chunk (ice_get_recordings E chunk)) (fs w))
          (mark_row chunk <$> db_contacts w)
          (db_transcripts w) (db_enhanced_transcripts w)
          (trace w ++ chunk_events E chunk).
Definition short_world (E : env) (chunk : list Z) (w : world) : world :=
  mkWorld (fs w) (db_contacts w) (db_transcripts w) (db_enhanced_transcripts w)
          (trace w ++ short_events E chunk).

(** The summary the chain of [enhanced_transcripts] computes for an
    identifier, before [replace_nans]. *)
Definition chain_summary (E : env) (contact_id : Z) (w : world) : row :=
  transcript_summary E
    (transcripts_df_transforms E
       (sort_by (order_leb E)
          (filter (λ r, contact_id_in [contact_id] r = true) (db_transcripts w)))).

(** The world after the storage loader appended [rows] to a relation. *)
Definition loaded_world (table_name : string) (columns : list string)
    (data : list (list scalar)) (w : world) : world :=
  final (postgrez_load table_name data columns w).

(* ===================================================================== *)
(** ** Concrete collaborators and worlds, for the examples *)
(* ===================================================================== *)

Definition empty_world : world := mkWorld ∅ [] [] [] [].

(** A service that answers every transcript request in full, in request
    order, and a configuration of small transforms. *)
Definition echo_env : env := {|
  ICESCAPE_OUTPUT_DIR := "/out";
  now := Dates.midnight 18000;
  ice_get_contacts := λ _ _, [JInt 1; JInt 2];
  ice_get_recordings := λ ids, (λ i, mkTranscript i JNull) <$> ids;
  contacts_transforms := λ j,
    match j with
    | JInt n => [("contact_id", SInt n); ("agent_id", SInt 7)]
    | _ => []
    end;
  recording_messages := λ t,
    [[("contact_id", SInt (ContactID t)); ("dt", SInt 1);
      ("message", SStr "a|b")]];
  transcripts_df_transforms := λ df, df;
  transcript_summary := λ df,
    [("n", SInt (Z.of_nat (length df))); ("avg", SFloat S754_nan)];
  dt_leb := λ _ _, true
|}.

(** The same, with a service that returns no transcript at all. *)
Definition silent_env : env :=
  mkEnv "/out" (now echo_env) (ice_get_contacts echo_env) (λ _, [])
        (contacts_transforms echo_env) (recording_messages echo_env)
        (transcripts_df_transforms echo_env) (transcript_summary echo_env)
        (dt_leb echo_env).

(** The same, with a service that stops answering from identifier 21 on. *)
Definition flaky_env : env :=
  mkEnv "/out" (now echo_env) (ice_get_contacts echo_env)
        (λ ids, (λ i, mkTranscript i JNull) <$> filter (λ i, i < 21) ids)
        (contacts_transforms echo_env) (recording_messages echo_env)
        (transcripts_df_transforms echo_env) (transcript_summary echo_env)
        (dt_leb echo_env).

(** The same, with a service that returns the transcripts in reverse
    order. *)
Definition reversing_env : env :=
  mkEnv "/out" (now echo_env) (ice_get_contacts echo_env)
        (λ ids, (λ i, mkTranscript i JNull) <$> reverse ids)
        (contacts_transforms echo_env) (recording_messages echo_env)
        (transcripts_df_transforms echo_env) (transcript_summary echo_env)
        (dt_leb echo_env).

(** The same as [echo_env], with a summary that holds a string with the
    load delimiter in it. *)
Definition piped_env : env :=
  mkEnv "/out" (now echo_env) (ice_get_contacts echo_env)
        (ice_get_recordings echo_env)
        (contacts_transforms echo_env) (recording_messages echo_env)
        (transcripts_df_transforms echo_env)
        (λ _, [("first_message", SStr "a|b")])
        (dt_leb echo_env).

(** The same as [echo_env], with a recording transform that finds no
    message in a transcript. *)
Definition mute_env : env :=
  mkEnv "/out" (now echo_env) (ice_get_contacts echo_env)
        (ice_get_recordings echo_env)
        (contacts_transforms echo_env) (λ _, [])
        (transcripts_df_transforms echo_env) (transcript_summary echo_env)
        (dt_leb echo_env).

(** A world whose transcripts relation holds one message of contact 5. *)
Definition one_transcript_world : world :=
  mkWorld ∅ []
    [[("contact_id", SInt 5); ("dt", SInt 1); ("message", SStr "hi")]] [] [].

(** A world whose output directory holds the transcript of contact 7. *)
Definition one_file_world : world :=
  mkWorld {[ "/out/7_data.txt" := TranscriptFile (mkTranscript 7 JNull) ]}
    [] [] [] [].

(** The three fields [parse_contacts_file] sets on a transformed contact. *)
Definition metadata_fields : list string :=
  ["interaction_type"; "transcript_downloaded"; "load_file"].

(** A world whose output directory holds the contacts of one day. *)
Definition contacts_file_world : world :=
  mkWorld {[ "/out/IM_2019-01-30_contacts.txt" := ContactsFile [JInt 1; JInt 2] ]}
    [] [] [] [].

(** Is the transcript file [name] still to be loaded, given the persisted
    identifiers? *)
Definition pending_name (loaded_contacts : list Z) (name : string) : bool :=
  match contact_id_of_filename name with
  | Some contact_id => bool_decide (contact_id ∉ loaded_contacts)
  | None => false
  end.

(** A world whose output directory holds a file named [_data.txt]. *)
Definition stray_file_world : world :=
  mkWorld {[ "/out/_data.txt" := TranscriptFile (mkTranscript 0 JNull) ]}
    [] [] [] [].

(** A world with the transcripts of contacts 7 and 8 on disk, the one of
    contact 7 already loaded. *)
Definition two_files_world : world :=
  mkWorld {[ "/out/7_data.txt" := TranscriptFile (mkTranscript 7 JNull);
             "/out/8_data.txt" := TranscriptFile (mkTranscript 8 JNull) ]}
    []
    [[("contact_id", SInt 7); ("dt", SInt 1); ("message", SStr "hi")]] [] [].

(** The dates [main] works with: yesterday, twice, when none is given. *)
Definition resolve_dates (E : env) (start_date end_date : option string)
  : option string * option string :=
  match start_date, end_date with
  | None, None =>
      let yesterday := Dates.dt_sub (now E) (Dates.days 1) in
      (Some (Dates.strftime_date yesterday), Some (Dates.strftime_date yesterday))
  | _, _ => (start_date, end_date)
  end.

(** [w'] comes from [w] by steps of the contacts stages only: the
    transcripts and enhanced_transcripts relations are those of [w], and
    the events added are none of the transcript stages'. *)
Definition contacts_only (w w' : world) : Prop :=
  db_transcripts w' = db_transcripts w
  ∧ db_enhanced_transcripts w' = db_enhanced_transcripts w
  ∧ ∃ evs, trace w' = trace w ++ evs
           ∧ Forall (λ e, transcript_stage_event e = false) evs.

(** A computation all of whose runs are such steps. *)
Definition keeps {A} (m : M A) : Prop :=
  ∀ w, contacts_only w (final (m w)).

(* ===================================================================== *)
(** ** Further observations *)
(* ===================================================================== *)

(** The name [download_contacts] gives the artifact when it is called
    without a range: the day before the clock's. *)
Definition yesterday_path (E : env) (interaction_type : string) : string :=
  PyStr.path_join (ICESCAPE_OUTPUT_DIR E)
    (interaction_type +:+ "_"
       +:+ Dates.strftime_date (Dates.dt_sub (now E) (Dates.days 1))
       +:+ "_contacts.txt").

(** A row after the marker updates of [chunks], in order. *)
Definition mark_all (chunks : list (list Z)) (r : row) : row :=
  foldl (λ r ids, mark_row ids r) r chunks.

(** The chunks that are processed in full: those before the first short
    one. *)
Fixpoint done_chunks (E : env) (chunks : list (list Z)) : list (list Z) :=
  match chunks with
  | [] => []
  | c :: cs => if short E c then [] else c :: done_chunks E cs
  end.

(** The same as [echo_env], with a service that adds one transcript nobody
    asked for to every response. *)
Definition generous_env : env :=
  mkEnv "/out" (now echo_env) (ice_get_contacts echo_env)
        (λ ids, ((λ i, mkTranscript i JNull) <$> ids) ++ [mkTranscript 999 JNull])
        (contacts_transforms echo_env) (recording_messages echo_env)
        (transcripts_df_transforms echo_env) (transcript_summary echo_env)
        (dt_leb echo_env).

(** A world with three contacts: one pending, one already downloaded, one
    without an agent. *)
Definition three_contacts_world : world :=
  mkWorld ∅
    [[("contact_id", SInt 1); ("agent_id", SInt 7);
      ("transcript_downloaded", SBool false)];
     [("contact_id", SInt 2); ("agent_id", SInt 7);
      ("transcript_downloaded", SBool true)];
     [("contact_id", SInt 3); ("agent_id", SNone);
      ("transcript_downloaded", SBool false)]]
    [] [] [].

(** The same as [echo_env], with a contacts transform that leaves the
    agent out of every contact but the first. *)
Definition ragged_env : env :=
  mkEnv "/out" (now echo_env) (ice_get_contacts echo_env)
        (ice_get_recordings echo_env)
        (λ j, match j with
              | JInt 1 => [("contact_id", SInt 1); ("agent_id", SInt 7)]
              | JInt n => [("contact_id", SInt n)]
              | _ => []
              end)
        (recording_messages echo_env)
        (transcripts_df_transforms echo_env) (transcript_summary echo_env)
        (dt_leb echo_env).

(** A world whose output directory holds a contacts artifact without
    records. *)
Definition empty_file_world : world :=
  mkWorld {[ "/out/IM_2019-01-30_contacts.txt" := ContactsFile [] ]}
    [] [] [] [].

(* ===================================================================== *)
(** ** What a pattern denotes *)
(* ===================================================================== *)

(** [matches r s]: the whole of [s] is in the language of [r]. *)
Inductive matches : Regex.regex → string → Prop :=
| MEps : matches Regex.Eps ""
| MChr c : matches (Regex.Chr c) (String c "")
| MAny c : (N_of_ascii c =? 10)%N = false → matches Regex.Any (String c "")
| MDigit c : Regex.is_digit c = true → matches Regex.Digit (String c "")
| MWord c : Regex.is_word c = true → matches Regex.Word (String c "")
| MSeq r1 r2 s1 s2 :
    matches r1 s1 → matches r2 s2 → matches (Regex.Seq r1 r2) (s1 +:+ s2)
| MAltL r1 r2 s : matches r1 s → matches (Regex.Alt r1 r2) s
| MAltR r1 r2 s : matches r2 s → matches (Regex.Alt r1 r2) s
| MStarNil r : matches (Regex.Star r) ""
| MStarApp r s1 s2 :
    matches r s1 → matches (Regex.Star r) s2 →
    matches (Regex.Star r) (s1 +:+ s2).

(** A pattern with an empty language, by its shape. *)
Fixpoint is_void (r : Regex.regex) : bool :=
  match r with
  | Regex.Void => true
  | Regex.Seq r1 r2 => is_void r1 || is_void r2
  | Regex.Alt r1 r2 => is_void r1 && is_void r2
  | _ => false
  end.

(** A string of decimal digits. *)
Fixpoint all_digits (s : string) : bool :=
  match s with
  | EmptyString => true
  | String c s' => Regex.is_digit c && all_digits s'
  end.

(* ===================================================================== *)
(** ** Sanity checks of the helpers *)
(* ===================================================================== *)

Example re_contacts_1 :
Regex.re_match Regex.contacts_reg "IM_2019-01-30_contacts.txt" = true.
Proof. vm_compute. reflexivity. Qed.
Example re_contacts_2 :
Regex.re_match Regex.contacts_reg "123_data.txt" = false.
Proof. vm_compute. reflexivity. Qed.
Example re_transcripts_1 :
Regex.re_match Regex.transcripts_reg "123_data.txt" = true.
Proof. vm_compute. reflexivity. Qed.
Example re_transcripts_2 :
Regex.re_match Regex.transcripts_reg "_data.txt" = true.
Proof. vm_compute. reflexivity. Qed.
Example re_transcripts_3 :
Regex.re_match Regex.transcripts_reg "IM_2019-01-30_contacts.txt" = false.
Proof. vm_compute. reflexivity. Qed.
Example py_int_1 : PyStr.py_int "0123" = Some 123.
Proof. vm_compute. reflexivity. Qed.
Example py_int_2 : PyStr.py_int "" = None.
Proof. vm_compute. reflexivity. Qed.
Example split_first_1 : PyStr.split_first "_data.txt" "123_data.txt" = "123".
Proof. vm_compute. reflexivity. Qed.
Example split_first_2 : PyStr.split_first "_" "IM_2019-01-30_contacts.txt" = "IM".
Proof. vm_compute. reflexivity. Qed.
Example basename_1 : PyStr.basename "/data/out/7_data.txt" = "7_data.txt".
Proof. vm_compute. reflexivity. Qed.
Example str_of_int_1 : PyStr.str_of_int 1205 = "1205".
Proof. vm_compute. reflexivity. Qed.
Example civil_1 : Dates.civil_from_days 0 = (1970, 1, 1).
Proof. vm_compute. reflexivity. Qed.
Example civil_2 : Dates.civil_from_days (Dates.days_from_civil 2020 2 29) = (2020, 2, 29).
Proof. vm_compute. reflexivity. Qed.
Example strftime_1 :
Dates.strftime_tm <$> Dates.parse_date "2019-01-30" = Some "2019-01-30T00:00:00.000000".
Proof. vm_compute. reflexivity. Qed.
Example strftime_2 :
(λ t, Dates.strftime_tm
        (Dates.dt_sub (Dates.dt_add t (Dates.days 1)) (Dates.milliseconds 1)))
  <$> Dates.parse_date "2019-12-31" = Some "2019-12-31T23:59:59.999000".
Proof. vm_compute. reflexivity. Qed.
Example date_range_1 :
length <$> Dates.generate_date_range "2019-02-27" "2019-03-02" = Some 4%nat.
Proof. vm_compute. reflexivity. Qed.

(* ===================================================================== *)
(** ** The monad *)
(* ===================================================================== *)

Lemma bind_unfold {A B} (m : M A) (k : A → M B) (w : world) :
  (m ≫= k) w = match m w with
               | Ok a w' => k a w'
               | Raise e w' => Raise e w'
               end.
Proof. reflexivity. Qed.

Lemma bind_ok {A B} (m : M A) (k : A → M B) w a w' :
  m w = Ok a w' → (m ≫= k) w = k a w'.
Proof. intros H. rewrite bind_unfold, H. reflexivity. Qed.

Lemma bind_raise {A B} (m : M A) (k : A → M B) w e w' :
  m w = Raise e w' → (m ≫= k) w = Raise e w'.
Proof. intros H. rewrite bind_unfold, H. reflexivity. Qed.

Lemma bind_ret_unit (m : M unit) w : (m ;; mret tt) w = m w.
Proof. rewrite bind_unfold. destruct (m w) as [[] ?|]; reflexivity. Qed.

Lemma for_each_app {A} (l1 l2 : list A) (body : A → M unit) w :
  for_each (l1 ++ l2) body w = (for_each l1 body ;; for_each l2 body) w.
Proof.
  revert w. induction l1 as [|x l1 IH]; intros w; simpl.
  - reflexivity.
  - rewrite !bind_unfold. destruct (body x w); [apply IH | reflexivity].
Qed.

(** *** Chunking *)

Lemma chunker_go_concat {A} fuel (l : list A) size :
  (0 < size)%nat → (length l ≤ fuel)%nat →
  concat (chunker_go fuel l size) = l.
Proof.
  revert l. induction fuel as [|fuel IH]; intros l Hs Hl.
  - destruct l; simpl in *; [reflexivity | lia].
  - destruct l as [|x l]; [reflexivity|].
    cbn [chunker_go concat]. rewrite IH; [apply take_drop | done |].
    rewrite length_drop. simpl in *. lia.
Qed.

Lemma chunker_go_sizes {A} fuel (l : list A) size :
  (0 < size)%nat →
  Forall (λ c, 0 < length c ≤ size)%nat (chunker_go fuel l size).
Proof.
  revert l. induction fuel as [|fuel IH]; intros l Hs; [constructor|].
  destruct l as [|x l]; [constructor|].
  cbn [chunker_go]. constructor; [|by apply IH].
  rewrite length_take. simpl. lia.
Qed.

Lemma chunker_go_length {A} fuel (l : list A) :
  (length l ≤ fuel)%nat →
  length (chunker_go fuel l 20) = ceil_div (length l) 20.
Proof.
  unfold ceil_div. revert l. induction fuel as [|fuel IH]; intros l Hl.
  - destruct l; simpl in *; [reflexivity | lia].
  - destruct l as [|x l]; [reflexivity|].
    cbn [chunker_go length]. rewrite IH.
    + rewrite length_drop. cbn [length].
      generalize (length l). intros n. change (20 - 1)%nat with 19%nat.
      pose proof (Nat.div_mod_eq (S n - 20 + 19) 20) as H1.
      pose proof (Nat.mod_upper_bound (S n - 20 + 19) 20) as H2.
      pose proof (Nat.div_mod_eq (S n + 19) 20) as H3.
      pose proof (Nat.mod_upper_bound (S n + 19) 20) as H4.
      remember ((S n - 20 + 19) `div` 20)%nat as q1.
      remember ((S n - 20 + 19) `mod` 20)%nat as r1.
      remember ((S n + 19) `div` 20)%nat as q2.
      remember ((S n + 19) `mod` 20)%nat as r2.
      lia.
    + rewrite length_drop. simpl in *. lia.
Qed.

(** *** One chunk of [download_transcripts] *)

Lemma for_each_save E (l : list (Z * transcript)) w :
  for_each l (λ '(contact_id, t),
                save_data E (TranscriptFile t) (transcript_filename contact_id)) w
  = Ok tt (mkWorld (save_transcripts E l (fs w)) (db_contacts w)
             (db_transcripts w) (db_enhanced_transcripts w)
             (trace w ++ ((λ '(contact_id, t),
                 WriteJson (transcript_path E contact_id) (TranscriptFile t)) <$> l))).
Proof.
  revert w. induction l as [|[cid t] l IH]; intros w.
  - simpl. rewrite app_nil_r. by destruct w.
  - cbn [for_each]. rewrite bind_unfold.
    unfold save_data at 1, write_jason at 1. rewrite IH. cbn.
    by rewrite <- app_assoc.
Qed.

Ltac monad_unfold :=
  unfold mbind, M_bind, bind, log, emit, mret, M_ret, ret, raise, gets in *.
Ltac world_simpl :=
  cbn [fs db_contacts db_transcripts db_enhanced_transcripts trace final] in *.

Lemma download_chunk_whole E chunk w :
  short E chunk = false →
  download_chunk E chunk w = Ok tt (chunk_world E chunk w).
Proof.
  intros Hs. unfold short in Hs. unfold download_chunk, get_recordings.
  monad_unfold. rewrite Hs, for_each_save.
  unfold mark_downloaded, chunk_world, chunk_events. world_simpl.
  by rewrite <- ?app_assoc.
Qed.

Lemma download_chunk_short E chunk w :
  short E chunk = true →
  download_chunk E chunk w
  = Raise (Exception "Transcripts not returned for all contact ids")
          (short_world E chunk w).
Proof.
  intros Hs. unfold short in Hs. unfold download_chunk, get_recordings.
  monad_unfold. rewrite Hs. unfold short_world, short_events. world_simpl.
  by rewrite <- ?app_assoc.
Qed.

(** *** All the chunks *)

Lemma for_each_chunks_trace E chunks w :
  trace (final (for_each chunks (download_chunk E) w))
  = trace w ++ chunks_events E chunks.
Proof.
  revert w. induction chunks as [|c cs IH]; intros w; cbn [for_each chunks_events].
  - by rewrite app_nil_r.
  - rewrite bind_unfold. destruct (short E c) eqn:Hs.
    + by rewrite download_chunk_short.
    + rewrite download_chunk_whole, IH by done.
      unfold chunk_world. world_simpl. by rewrite <- app_assoc.
Qed.

Lemma for_each_chunks_whole E chunks w :
  Forall (λ c, short E c = false) chunks →
  for_each chunks (download_chunk E) w
  = Ok tt (final (for_each chunks (download_chunk E) w)).
Proof.
  revert w. induction chunks as [|c cs IH]; intros w Hall; cbn [for_each].
  - reflexivity.
  - inversion Hall; subst. rewrite bind_unfold, download_chunk_whole by done.
    by apply IH.
Qed.

Lemma for_each_chunks_short E done c rest w :
  Forall (λ c, short E c = false) done → short E c = true →
  for_each (done ++ c :: rest) (download_chunk E) w
  = Raise (Exception "Transcripts not returned for all contact ids")
          (final (for_each (done ++ c :: rest) (download_chunk E) w)).
Proof.
  revert w. induction done as [|d ds IH]; intros w Hall Hs; cbn [for_each app].
  - by rewrite bind_unfold, download_chunk_short.
  - inversion Hall; subst. rewrite bind_unfold, download_chunk_whole by done.
    by apply IH.
Qed.

Lemma chunks_events_whole E chunks :
  Forall (λ c, short E c = false) chunks →
  chunks_events E chunks = concat (chunk_events E <$> chunks).
Proof.
  induction 1 as [|c cs Hc _ IH]; [reflexivity|].
  cbn [chunks_events fmap list_fmap concat]. by rewrite Hc, IH.
Qed.

Lemma chunks_events_short E done c rest :
  Forall (λ c, short E c = false) done → short E c = true →
  chunks_events E (done ++ c :: rest)
  = concat (chunk_events E <$> done) ++ short_events E c.
Proof.
  intros Hall Hs. induction Hall as [|d ds Hd _ IH]; cbn [app chunks_events].
  - by rewrite Hs.
  - rewrite Hd, IH. cbn [fmap list_fmap concat]. by rewrite <- app_assoc.
Qed.

Lemma for_each_chunks_contacts E done c rest w :
  Forall (λ c, short E c = false) done → short E c = true →
  db_contacts (final (for_each (done ++ c :: rest) (download_chunk E) w))
  = foldl (λ rows ids, mark_row ids <$> rows) (db_contacts w) done.
Proof.
  revert w. induction done as [|d ds IH]; intros w Hall Hs; cbn [for_each app foldl].
  - by rewrite bind_unfold, download_chunk_short.
  - inversion Hall; subst. rewrite bind_unfold, download_chunk_whole by done.
    by rewrite IH.
Qed.

(** *** Reading a trace *)

Lemma new_events_app {A} w (r : result A) evs :
  trace (final r) = trace w ++ evs → new_events w r = evs.
Proof. intros H. unfold new_events. rewrite H. apply drop_app_length. Qed.

Lemma omap_fmap_None {A B C} (f : B → option C) (g : A → B) (l : list A) :
  (∀ x, f (g x) = None) → omap f (g <$> l) = [].
Proof.
  intros H. induction l as [|x l IH]; [reflexivity|].
  cbn [fmap list_fmap omap list_omap]. simpl. rewrite H. exact IH.
Qed.

Lemma recordings_calls_chunk E c : recordings_calls (chunk_events E c) = [c].
Proof.
  unfold recordings_calls, chunk_events. cbn [omap list_omap].
  rewrite omap_app, omap_fmap_None; [reflexivity | by intros []].
Qed.

Lemma marker_updates_chunk E c : marker_updates (chunk_events E c) = [c].
Proof.
  unfold marker_updates, chunk_events. cbn [omap list_omap].
  rewrite omap_app, omap_fmap_None; [reflexivity | by intros []].
Qed.

Lemma recordings_calls_chunks E chunks :
  recordings_calls (concat (chunk_events E <$> chunks)) = chunks.
Proof.
  induction chunks as [|c cs IH]; [reflexivity|].
  cbn [fmap list_fmap concat]. unfold recordings_calls in *.
  rewrite omap_app. fold (recordings_calls (chunk_events E c)).
  rewrite recordings_calls_chunk. simpl. f_equal. exact IH.
Qed.

Lemma marker_updates_chunks E chunks :
  marker_updates (concat (chunk_events E <$> chunks)) = chunks.
Proof.
  induction chunks as [|c cs IH]; [reflexivity|].
  cbn [fmap list_fmap concat]. unfold marker_updates in *.
  rewrite omap_app. fold (marker_updates (chunk_events E c)).
  rewrite marker_updates_chunk. simpl. f_equal. exact IH.
Qed.

Lemma elem_of_missing_ids chunk transcripts x :
  x ∈ missing_ids chunk transcripts ↔ x ∈ chunk ∧ x ∉ ContactID <$> transcripts.
Proof.
  unfold missing_ids. rewrite elem_of_elements, elem_of_difference.
  by rewrite !elem_of_list_to_set.
Qed.

(** Rows of the identifiers of a chunk that no update names stay as
    they are. *)
Lemma mark_rows_frame (done : list (list Z)) (c : list Z) (rows : list row) i r :
  (∀ x d, x ∈ c → d ∈ done → x ∉ d) →
  rows !! i = Some r → contact_id_in c r = true →
  foldl (λ rows ids, mark_row ids <$> rows) rows done !! i = Some r.
Proof.
  revert rows. induction done as [|d ds IH]; intros rows Hdis Hi Hc; [done|].
  cbn [foldl]. apply IH; [| |done].
  - intros x d' Hx Hd'. apply Hdis; [done | by right].
  - rewrite list_lookup_fmap, Hi. cbn. f_equal.
    unfold mark_row. replace (contact_id_in d r) with false; [done|].
    unfold contact_id_in in *. destruct (row_contact_id r) as [n|]; [|done].
    apply bool_decide_eq_true in Hc. symmetry. apply bool_decide_eq_false.
    apply Hdis; [done | by left].
Qed.

Lemma download_transcripts_trace E contact_ids w :
  let ids := resolve_contact_ids contact_ids w in
  trace (final (download_transcripts E contact_ids w))
  = trace w ++ match ids with
               | [] => [Log WarnNoContactIds]
               | _ => Log (InfoAttempting (length ids))
                        :: chunks_events E (chunker ids 20)
               end.
Proof.
  intros ids. unfold download_transcripts. rewrite bind_unfold.
  assert (match contact_ids with
          | None => gets select_pending_contact_ids
          | Some l => mret l
          end w = Ok ids w) as -> by (by destruct contact_ids).
  destruct ids as [|x ids']; [reflexivity|].
  rewrite bind_unfold. unfold log, emit.
  rewrite for_each_chunks_trace. world_simpl. by rewrite <- app_assoc.
Qed.

(* ===================================================================== *)
(** ** C1: chunked download of transcripts *)
(* ===================================================================== *)

(** C1, as stated, fails: with 21 identifiers and a service that returns
    nothing, the first chunk comes back short, the operation raises, and
    one remote call has been issued, not ceil(21/20) = 2. *)
Lemma download_transcripts_calls_counterexample :
  let ids := seqZ 1 21 in
  let r := download_transcripts silent_env (Some ids) empty_world in
  length (recordings_calls (new_events empty_world r)) = 1%nat
  ∧ ceil_div (length ids) 20 = 2%nat
  ∧ length (recordings_calls (new_events empty_world r))
    ≠ ceil_div (length ids) 20.
Proof. vm_compute. repeat split; congruence. Qed.

(** C1 (amended): the identifiers are split into consecutive chunks of at
    most 20, ceil(L/20) of them; the chunks are processed in order, one
    remote call each, until one comes back short. When none is short the
    operation returns, with exactly ceil(L/20) calls and one marker update
    per chunk, issued after that chunk's artifacts are written. When chunk
    [c] is the first short one, the operation raises after [|done| + 1]
    calls, logs the set difference of requested and returned identifiers,
    writes no artifact and issues no marker update for [c]; the rows of the
    identifiers of [c] are left as they were when no identifier is
    repeated. *)
Theorem download_transcripts_chunks E contact_ids w :
  let ids := resolve_contact_ids contact_ids w in
  let chunks := chunker ids 20 in
  let r := download_transcripts E contact_ids w in
  let new := new_events w r in
  (concat chunks = ids
   ∧ Forall (λ c, 0 < length c ≤ 20)%nat chunks
   ∧ length chunks = ceil_div (length ids) 20)
  ∧ (Forall (λ c, short E c = false) chunks →
     r = Ok tt (final r)
     ∧ new = match ids with
             | [] => [Log WarnNoContactIds]
             | _ => Log (InfoAttempting (length ids))
                      :: concat (chunk_events E <$> chunks)
             end
     ∧ recordings_calls new = chunks
     ∧ length (recordings_calls new) = ceil_div (length ids) 20
     ∧ marker_updates new = chunks)
  ∧ (∀ done c rest,
       chunks = done ++ c :: rest →
       Forall (λ c, short E c = false) done → short E c = true →
       r = Raise (Exception "Transcripts not returned for all contact ids")
                 (final r)
       ∧ new = Log (InfoAttempting (length ids))
                 :: concat (chunk_events E <$> done) ++ short_events E c
       ∧ recordings_calls new = done ++ [c]
       ∧ marker_updates new = done
       ∧ (∃ missing,
            last new = Some (Log (WarnMissingTranscripts missing))
            ∧ ∀ x, x ∈ missing ↔
                   x ∈ c ∧ x ∉ ContactID <$> ice_get_recordings E c)
       ∧ db_contacts (final r)
         = foldl (λ rows ids, mark_row ids <$> rows) (db_contacts w) done
       ∧ (NoDup ids →
          (∀ x u, x ∈ c → u ∈ marker_updates new → x ∉ u)
          ∧ ∀ i row, db_contacts w !! i = Some row →
                     contact_id_in c row = true →
                     db_contacts (final r) !! i = Some row)).
Proof.
  intros ids chunks r new.
  assert (Hcat : concat chunks = ids)
    by (apply chunker_go_concat; lia).
  assert (Hnew : new = match ids with
                       | [] => [Log WarnNoContactIds]
                       | _ => Log (InfoAttempting (length ids))
                                :: chunks_events E chunks
                       end)
    by (apply new_events_app, download_transcripts_trace).
  assert (Hrun : ∀ x l, ids = x :: l →
            r = (let w1 := mkWorld (fs w) (db_contacts w) (db_transcripts w)
                             (db_enhanced_transcripts w)
                             (trace w ++ [Log (InfoAttempting (length ids))]) in
                 for_each chunks (download_chunk E) w1)).
  { intros x l Hids. subst r. unfold download_transcripts.
    rewrite bind_unfold.
    assert (match contact_ids with
            | None => gets select_pending_contact_ids
            | Some l => mret l
            end w = Ok ids w) as -> by (by destruct contact_ids).
    fold chunks. rewrite Hids. reflexivity. }
  split; [|split].
  - split; [done|]. split.
    + apply chunker_go_sizes. lia.
    + by apply chunker_go_length.
  - intros Hall. rewrite Hnew.
    destruct ids as [|x ids'] eqn:Hids.
    + subst r. unfold download_transcripts. rewrite bind_unfold.
      assert (match contact_ids with
              | None => gets select_pending_contact_ids
              | Some l => mret l
              end w = Ok [] w) as ->.
      { fold ids in Hids. destruct contact_ids; simpl in *; by rewrite <- Hids. }
      by repeat split.
    + rewrite (chunks_events_whole E chunks Hall).
      cbn [recordings_calls marker_updates omap list_omap].
      fold (recordings_calls (concat (chunk_events E <$> chunks))).
      fold (marker_updates (concat (chunk_events E <$> chunks))).
      rewrite recordings_calls_chunks, marker_updates_chunks.
      repeat split.
      * rewrite (Hrun x ids' eq_refl). cbn zeta.
        by rewrite for_each_chunks_whole at 1.
      * by apply chunker_go_length.
  - intros done c rest Hch Hall Hs.
    destruct ids as [|x ids'] eqn:Hids.
    { exfalso. subst chunks. by destruct done. }
    rewrite Hnew, Hch, (chunks_events_short E done c rest Hall Hs).
    assert (Hr := Hrun x ids' eq_refl). cbn zeta in Hr. rewrite Hch in Hr.
    split; [|split; [done|split; [|split; [|split; [|split]]]]].
    + rewrite Hr. by rewrite for_each_chunks_short at 1.
    + cbn [recordings_calls omap list_omap]. rewrite omap_app.
      fold (recordings_calls (concat (chunk_events E <$> done))).
      by rewrite recordings_calls_chunks.
    + cbn [marker_updates omap list_omap]. rewrite omap_app.
      fold (marker_updates (concat (chunk_events E <$> done))).
      rewrite marker_updates_chunks. cbn. by rewrite app_nil_r.
    + eexists. split.
      * unfold short_events.
        rewrite (app_comm_cons _ _ (Log (InfoAttempting _))).
        change [GetRecordings c; ?e] with ([GetRecordings c] ++ [e]).
        rewrite !app_assoc. apply last_snoc.
      * intros y. apply elem_of_missing_ids.
    + rewrite Hr. by rewrite for_each_chunks_contacts.
    + intros Hnd.
      assert (Hdis : ∀ y d, y ∈ c → d ∈ done → y ∉ d).
      { intros y d Hy Hd Hyd. rewrite <- Hcat, Hch, concat_app in Hnd.
        apply NoDup_app in Hnd as (_ & Hnd & _).
        apply (Hnd y).
        - apply list_elem_of_In, in_concat. exists d.
          split; by apply list_elem_of_In.
        - cbn [concat]. apply elem_of_app. by left. }
      split.
      * intros y u Hy Hu. revert Hu.
        cbn [marker_updates omap list_omap]. rewrite omap_app.
        fold (marker_updates (concat (chunk_events E <$> done))).
        rewrite marker_updates_chunks. cbn. rewrite app_nil_r.
        intros Hu. by apply Hdis.
      * intros i row Hi Hc. rewrite Hr, for_each_chunks_contacts by done.
        by apply mark_rows_frame with (c := c).
Qed.

(** A run of 25 identifiers against a service that stops answering at
    identifier 21: the first chunk is whole, the second one short. *)
Lemma download_transcripts_chunks_witness :
  let r := download_transcripts flaky_env (Some (seqZ 1 25)) empty_world in
  let new := new_events empty_world r in
  r = Raise (Exception "Transcripts not returned for all contact ids") (final r)
  ∧ recordings_calls new = [seqZ 1 20; seqZ 21 5]
  ∧ marker_updates new = [seqZ 1 20]
  ∧ (∀ x u, x ∈ seqZ 21 5 → u ∈ marker_updates new → x ∉ u).
Proof.
  destruct (download_transcripts_chunks flaky_env (Some (seqZ 1 25)) empty_world)
    as (_ & _ & H).
  destruct (H [seqZ 1 20] (seqZ 21 5) []) as (H1 & _ & H3 & H4 & _ & _ & H7).
  - vm_compute. reflexivity.
  - repeat constructor.
  - vm_compute. reflexivity.
  - destruct H7 as [H7 _].
    + apply NoDup_ListNoDup. vm_compute.
      repeat (constructor; [intros Hin; vm_compute in Hin; intuition congruence|]).
      constructor.
    + split; [exact H1 | split; [exact H3 | split; [exact H4 | exact H7]]].
Defined.

(* ===================================================================== *)
(** ** C9: transcripts are filed by position *)
(* ===================================================================== *)

Lemma omap_fmap_Some {A B C} (f : B → option C) (g : A → B) (h : A → C)
    (l : list A) :
  (∀ x, f (g x) = Some (h x)) → omap f (g <$> l) = h <$> l.
Proof.
  intros H. induction l as [|x l IH]; [reflexivity|].
  cbn [fmap list_fmap omap list_omap]. simpl. rewrite H. f_equal. exact IH.
Qed.

Lemma saves_chunk E c :
  saves (chunk_events E c)
  = (λ '(contact_id, t), (transcript_path E contact_id, TranscriptFile t))
      <$> zip c (ice_get_recordings E c).
Proof.
  unfold saves, chunk_events. cbn [omap list_omap]. rewrite omap_app.
  cbn [omap list_omap]. rewrite app_nil_r.
  apply omap_fmap_Some. by intros [].
Qed.

(** C9: in a chunk that comes back whole, the i-th artifact written is
    named after the i-th requested identifier, [{id}_data.txt] in the
    output directory, and holds the i-th returned transcript, whatever
    [ContactID] that transcript carries: nothing relates the two. *)
Theorem download_chunk_by_position E chunk w :
  short E chunk = false →
  let r := download_chunk E chunk w in
  let written := saves (new_events w r) in
  r = Ok tt (final r)
  ∧ length written = length chunk
  ∧ ∀ i contact_id,
      chunk !! i = Some contact_id →
      ∃ t, ice_get_recordings E chunk !! i = Some t
           ∧ written !! i
             = Some (PyStr.path_join (ICESCAPE_OUTPUT_DIR E)
                       (PyStr.str_of_int contact_id +:+ "_data.txt"),
                     TranscriptFile t).
Proof.
  intros Hs r written. subst written r.
  rewrite download_chunk_whole by done. cbn [final].
  rewrite (new_events_app w (Ok tt (chunk_world E chunk w)) (chunk_events E chunk))
    by reflexivity.
  rewrite saves_chunk.
  unfold short in Hs. apply bool_decide_eq_false in Hs.
  split; [reflexivity|]. split.
  - rewrite length_fmap, length_zip. lia.
  - intros i cid Hi.
    destruct (lookup_lt_is_Some_2 (ice_get_recordings E chunk) i) as [t Ht].
    { apply lookup_lt_Some in Hi. lia. }
    exists t. split; [done|].
    rewrite list_lookup_fmap.
    assert (zip chunk (ice_get_recordings E chunk) !! i = Some (cid, t)) as ->.
    { apply lookup_zip_with_Some. by exists cid, t. }
    reflexivity.
Qed.

(** A service that returns the two transcripts in reverse order: the
    artifact named after identifier 1 holds the transcript of contact 2. *)
Lemma download_chunk_by_position_witness :
  let r := download_chunk reversing_env [1; 2] empty_world in
  r = Ok tt (final r)
  ∧ ∃ t, saves (new_events empty_world r) !! 0%nat
         = Some ("/out/1_data.txt", TranscriptFile t)
         ∧ ContactID t = 2.
Proof.
  destruct (download_chunk_by_position reversing_env [1; 2] empty_world)
    as (H1 & _ & H3).
  - vm_compute. reflexivity.
  - split; [exact H1|].
    destruct (H3 0%nat 1 eq_refl) as (t & Ht & Hw).
    exists t. split; [exact Hw|].
    vm_compute in Ht. by injection Ht as <-.
Defined.

(* ===================================================================== *)
(** ** Dictionaries *)
(* ===================================================================== *)

Section DictFacts.
Context {V : Type}.
Implicit Types (d : dict V) (k : string) (v : V).

Lemma get_set_eq k v d : get k (set k v d) = Some v.
Proof.
  induction d as [|[k' v'] d IH]; simpl.
  - by rewrite String.eqb_refl.
  - destruct (String.eqb_spec k' k) as [->|Hne]; simpl.
    + by rewrite String.eqb_refl.
    + destruct (String.eqb_spec k' k); [done | exact IH].
Qed.

Lemma get_set_ne k k' v d : k ≠ k' → get k' (set k v d) = get k' d.
Proof.
  intros Hne. induction d as [|[k0 v0] d IH]; simpl.
  - destruct (String.eqb_spec k k'); [done | reflexivity].
  - destruct (String.eqb_spec k0 k) as [->|Hk0]; simpl.
    + destruct (String.eqb_spec k k'); [done | reflexivity].
    + destruct (String.eqb_spec k0 k'); [reflexivity | exact IH].
Qed.

Lemma get_None_keys k d : get k d = None ↔ k ∉ keys d.
Proof.
  unfold keys. induction d as [|[k' v'] d IH]; simpl.
  - split; [intros _; apply not_elem_of_nil | done].
  - rewrite not_elem_of_cons. destruct (String.eqb_spec k' k) as [->|Hne].
    + split; [done | intros [? _]; done].
    + rewrite IH. split; [intros ?; split; [congruence | done] | by intros [_ ?]].
Qed.

Lemma get_is_Some_keys k d : is_Some (get k d) ↔ k ∈ keys d.
Proof.
  rewrite <- not_eq_None_Some, get_None_keys.
  destruct (decide (k ∈ keys d)); naive_solver.
Qed.

Lemma keys_set_in k v d : k ∈ keys d → keys (set k v d) = keys d.
Proof.
  unfold keys. induction d as [|[k' v'] d IH]; simpl.
  - by intros ?%elem_of_nil.
  - intros Hin. destruct (String.eqb_spec k' k) as [->|Hne]; simpl; [done|].
    f_equal. apply IH. apply elem_of_cons in Hin as [?|?]; [congruence | done].
Qed.

Lemma keys_set_notin k v d : k ∉ keys d → keys (set k v d) = keys d ++ [k].
Proof.
  unfold keys. induction d as [|[k' v'] d IH]; simpl; [done|].
  intros [Hne Hnin]%not_elem_of_cons.
  destruct (String.eqb_spec k' k) as [->|_]; [done|]. simpl. f_equal. by apply IH.
Qed.

Lemma keys_set_prefix k v d : keys d `prefix_of` keys (set k v d).
Proof.
  destruct (decide (k ∈ keys d)).
  - by rewrite keys_set_in.
  - rewrite keys_set_notin by done. by apply prefix_app_r.
Qed.

Lemma elem_of_keys_set k k' v d : k' ∈ keys (set k v d) ↔ k' = k ∨ k' ∈ keys d.
Proof.
  destruct (decide (k ∈ keys d)).
  - rewrite keys_set_in by done. intuition (subst; auto).
  - rewrite keys_set_notin, elem_of_app, list_elem_of_singleton by done.
    tauto.
Qed.

(** Assigning to a key that sits behind a prefix that does not hold it. *)
Lemma set_app_notin k v v' (pre rest : dict V) :
  k ∉ keys pre → set k v' (pre ++ (k, v) :: rest) = pre ++ (k, v') :: rest.
Proof.
  unfold keys. induction pre as [|[k0 v0] pre IH]; simpl.
  - intros _. by rewrite String.eqb_refl.
  - intros [Hne Hnin]%not_elem_of_cons.
    destruct (String.eqb_spec k0 k); [congruence|]. f_equal. by apply IH.
Qed.

Lemma project_keys d : wf d → project (keys d) d = inr (values d).
Proof.
  unfold wf, keys, values.
  assert (∀ (pre rest : dict V), NoDup ((pre ++ rest).*1) →
            project (rest.*1) (pre ++ rest) = inr (rest.*2)) as H.
  { intros pre rest. revert pre.
    induction rest as [|[k v] rest IH]; intros pre Hnd; [reflexivity|].
    cbn [fmap list_fmap project fst snd].
    assert (get k (pre ++ (k, v) :: rest) = Some v) as ->.
    { rewrite fmap_app in Hnd. apply NoDup_app in Hnd as (_ & Hnd & _).
      clear IH. induction pre as [|[k0 v0] pre IHpre]; simpl.
      - by rewrite String.eqb_refl.
      - destruct (String.eqb_spec k0 k) as [->|_].
        + exfalso. apply (Hnd k); simpl; [by left | by left].
        + apply IHpre. intros x Hx. apply Hnd. simpl. by right. }
    specialize (IH (pre ++ [(k, v)])). rewrite <- app_assoc in IH.
    simpl in IH. by rewrite IH. }
  intros Hnd. exact (H [] d Hnd).
Qed.

(** A projected row, zipped back with its columns, reads as the
    dictionary did. *)
Lemma get_zip_project (ks : list string) d (vs : list V) k :
  project ks d = inr vs → k ∈ ks → get k (zip ks vs) = get k d.
Proof.
  revert vs. induction ks as [|k0 ks IH]; intros vs Hp Hin.
  - by apply elem_of_nil in Hin.
  - cbn [project] in Hp. destruct (get k0 d) as [v0|] eqn:Hk0; [|done].
    destruct (project ks d) as [|vs'] eqn:Hps; [done|].
    injection Hp as <-. simpl.
    destruct (String.eqb_spec k0 k) as [->|Hne]; [done|].
    apply IH; [done|]. apply elem_of_cons in Hin as [?|?]; [congruence | done].
Qed.

End DictFacts.

(* ===================================================================== *)
(** ** C8: [replace_nans] *)
(* ===================================================================== *)

Lemma replace_nans_go (pre rest : row) :
  wf (pre ++ rest) →
  foldl (λ acc '(key, value), if isnull value then set key SNone acc else acc)
        (pre ++ rest) rest
  = pre ++ ((λ '(k, v), (k, denan v)) <$> rest).
Proof.
  revert pre. induction rest as [|[k v] rest IH]; intros pre Hwf; [reflexivity|].
  cbn [foldl fmap list_fmap].
  assert (Hk : k ∉ keys pre).
  { unfold wf, keys in *. rewrite fmap_app in Hwf.
    apply NoDup_app in Hwf as (_ & Hd & _). intros Hin.
    apply (Hd k Hin). simpl. by left. }
  assert ((if isnull v then set k SNone (pre ++ (k, v) :: rest)
           else pre ++ (k, v) :: rest)
          = (pre ++ [(k, denan v)]) ++ rest) as ->.
  { rewrite <- app_assoc. unfold denan. simpl.
    destruct (isnull v); [by apply set_app_notin | done]. }
  rewrite IH.
  - by rewrite <- app_assoc.
  - unfold wf, keys in *. rewrite <- app_assoc. simpl.
    by rewrite fmap_app in *.
Qed.

Lemma replace_nans_map (summary : row) :
  wf summary → replace_nans summary = (λ '(k, v), (k, denan v)) <$> summary.
Proof. intros Hwf. exact (replace_nans_go [] summary Hwf). Qed.

Lemma get_map_values {V W} (f : V → W) (d : dict V) k :
  get k ((λ '(k, v), (k, f v)) <$> d) = f <$> get k d.
Proof.
  induction d as [|[k' v'] d IH]; [reflexivity|]. simpl.
  destruct (String.eqb k' k); [reflexivity | exact IH].
Qed.

Lemma denan_not_nan v : is_nan (denan v) = false.
Proof. unfold denan. by destruct v as [| | |[]|]. Qed.

Lemma load_enhanced_transcript_ok contact_id (summary : row) w :
  wf summary →
  load_enhanced_transcript contact_id summary w
  = postgrez_load "enhanced_transcripts"
      [SInt contact_id :: values summary] ("contact_id" :: keys summary) w.
Proof.
  intros Hwf. unfold load_enhanced_transcript. by rewrite project_keys.
Qed.

Lemma wf_replace_nans (summary : row) : wf summary → wf (replace_nans summary).
Proof.
  intros Hwf. rewrite replace_nans_map by done. unfold wf, keys in *.
  rewrite <- list_fmap_compose.
  erewrite list_fmap_ext; [exact Hwf|]. by intros _ [] _.
Qed.

Lemma postgrez_load_contacts data columns w :
  postgrez_load "contacts" data columns w
  = Ok tt (mkWorld (fs w) (db_contacts w ++ (make_row columns <$> data))
             (db_transcripts w) (db_enhanced_transcripts w)
             (trace w ++ [DbLoad "contacts" columns data])).
Proof. reflexivity. Qed.

Lemma postgrez_load_transcripts data columns w :
  postgrez_load "transcripts" data columns w
  = Ok tt (mkWorld (fs w) (db_contacts w)
             (db_transcripts w ++ (make_row columns <$> data))
             (db_enhanced_transcripts w)
             (trace w ++ [DbLoad "transcripts" columns data])).
Proof. reflexivity. Qed.

Lemma postgrez_load_enhanced data columns w :
  postgrez_load "enhanced_transcripts" data columns w
  = Ok tt (mkWorld (fs w) (db_contacts w) (db_transcripts w)
             (db_enhanced_transcripts w ++ (make_row columns <$> data))
             (trace w ++ [DbLoad "enhanced_transcripts" columns data])).
Proof. reflexivity. Qed.

(** A run that starts from [w] with one more event in its trace. *)
Lemma new_events_after {A} w e (r : result A) evs :
  trace (final r) = (trace w ++ [e]) ++ evs → new_events w r = e :: evs.
Proof.
  intros H. apply new_events_app. rewrite H. by rewrite <- app_assoc.
Qed.

Lemma enhance_ok E contact_id w :
  let summary := chain_summary E contact_id w in
  wf summary →
  enhance E contact_id w
  = postgrez_load "enhanced_transcripts"
      [SInt contact_id :: (denan <$> values summary)]
      ("contact_id" :: keys summary)
      (mkWorld (fs w) (db_contacts w) (db_transcripts w)
         (db_enhanced_transcripts w)
         (trace w ++ [Log (InfoLoadingTranscripts [contact_id])])).
Proof.
  intros summary Hwf. unfold enhance, load_transcripts_df. monad_unfold.
  world_simpl. fold (chain_summary E contact_id w). fold summary.
  rewrite load_enhanced_transcript_ok by by apply wf_replace_nans.
  rewrite replace_nans_map by done. unfold keys, values.
  rewrite <- !list_fmap_compose. f_equal.
  - do 2 f_equal. apply list_fmap_ext. by intros _ [] _.
  - f_equal. apply list_fmap_ext. by intros _ [] _.
Qed.

(** C8: [replace_nans] keeps the keys, turns every null value ([None] or
    the floating NaN) into [None] and leaves every other value as it is;
    no value of its result is NaN; and the row the enhancement chain hands
    to the loader is the identifier followed by those values. *)
Theorem replace_nans_no_nan (summary : row) :
  wf summary →
  keys (replace_nans summary) = keys summary
  ∧ values (replace_nans summary) = denan <$> values summary
  ∧ (∀ k v, get k summary = Some v →
            get k (replace_nans summary)
            = Some (if isnull v then SNone else v))
  ∧ Forall (λ v, is_nan v = false) (values (replace_nans summary))
  ∧ ∀ E contact_id w,
      chain_summary E contact_id w = summary →
      let r := enhance E contact_id w in
      r = Ok tt (final r)
      ∧ ∃ cells,
          loads (new_events w r)
          = [("enhanced_transcripts", "contact_id" :: keys summary,
              [SInt contact_id :: cells])]
          ∧ cells = values (replace_nans summary)
          ∧ Forall (λ v, is_nan v = false) (SInt contact_id :: cells).
Proof.
  intros Hwf.
  assert (Hv : values (replace_nans summary) = denan <$> values summary).
  { rewrite replace_nans_map by done. unfold values.
    rewrite <- !list_fmap_compose. apply list_fmap_ext. by intros _ [] _. }
  assert (Hn : Forall (λ v, is_nan v = false) (values (replace_nans summary))).
  { rewrite Hv. apply Forall_fmap, Forall_forall. intros v _.
    apply denan_not_nan. }
  split; [|split; [done|split; [|split; [done|]]]].
  - rewrite replace_nans_map by done. unfold keys.
    rewrite <- list_fmap_compose. apply list_fmap_ext. by intros _ [] _.
  - intros k v Hk. rewrite replace_nans_map, get_map_values, Hk by done.
    reflexivity.
  - intros E cid w Hs r. subst r.
    rewrite enhance_ok by (by rewrite Hs). rewrite Hs.
    split; [reflexivity|].
    exists (values (replace_nans summary)). split; [|split; [done|]].
    + rewrite postgrez_load_enhanced.
      erewrite new_events_after by (world_simpl; reflexivity).
      cbn. by rewrite Hv.
    + by constructor.
Qed.

(** The summary of contact 5 holds a NaN average: it is loaded as [None]. *)
Lemma replace_nans_no_nan_witness :
  let summary := [("n", SInt 1); ("avg", SFloat S754_nan)] in
  replace_nans summary = [("n", SInt 1); ("avg", SNone)]
  ∧ loads (new_events one_transcript_world (enhance echo_env 5 one_transcript_world))
    = [("enhanced_transcripts", ["contact_id"; "n"; "avg"],
        [[SInt 5; SInt 1; SNone]])].
Proof.
  assert (Hwf : wf [("n", SInt 1); ("avg", SFloat S754_nan)]).
  { unfold wf. apply NoDup_ListNoDup. vm_compute.
    repeat (constructor; [intros Hin; vm_compute in Hin; intuition congruence|]).
    constructor. }
  destruct (replace_nans_no_nan _ Hwf) as (_ & _ & _ & _ & H).
  split; [reflexivity|].
  destruct (H echo_env 5 one_transcript_world eq_refl) as (_ & cells & Hl & Hc & _).
  rewrite Hl, Hc. reflexivity.
Defined.

(* ===================================================================== *)
(** ** C4 and C5: what [parse_transcript] hands to the loader *)
(* ===================================================================== *)

(** A loop that rewrites the cells of a list one index after the other
    amounts to a map. *)
Lemma foldl_indexed_map {A} (f : A → A) (g : list A → nat → A → list A)
    (pre rest : list A) :
  (∀ pre x rest, g (pre ++ x :: rest) (length pre) x = pre ++ f x :: rest) →
  foldl (λ acc '(i, x), g acc i x) (pre ++ rest)
        (zip (seq (length pre) (length rest)) rest)
  = pre ++ (f <$> rest).
Proof.
  intros Hg. revert pre. induction rest as [|x rest IH]; intros pre.
  - reflexivity.
  - cbn [length seq zip zip_with foldl]. rewrite Hg.
    specialize (IH (pre ++ [f x])).
    rewrite length_app, Nat.add_1_r, <- !app_assoc in IH. exact IH.
Qed.

Lemma sanitize_cell_spec (pre : list scalar) (x : scalar) (rest : list scalar) :
  sanitize_cell (pre ++ x :: rest) (length pre) x
  = pre ++ strip_delimiter x :: rest.
Proof.
  unfold sanitize_cell, strip_delimiter. destruct x; try reflexivity.
  rewrite (insert_app_r_alt pre) by lia. by rewrite Nat.sub_diag.
Qed.

Lemma sanitize_row_map (row : list scalar) :
  sanitize_row row = strip_delimiter <$> row.
Proof.
  unfold sanitize_row.
  exact (foldl_indexed_map strip_delimiter sanitize_cell [] row sanitize_cell_spec).
Qed.

Lemma sanitize_map (load_data : list (list scalar)) :
  sanitize load_data = strip_rows load_data.
Proof.
  unfold sanitize, strip_rows.
  rewrite (foldl_indexed_map sanitize_row
             (λ acc i row, <[i := sanitize_row row]> acc) [] load_data).
  - simpl. apply list_fmap_ext. intros _ row _. apply sanitize_row_map.
  - intros pre x rest. rewrite (insert_app_r_alt pre) by lia.
    by rewrite Nat.sub_diag.
Qed.

Lemma remove_char_occurs c s : PyStr.occurs c (PyStr.remove_char c s) = false.
Proof.
  induction s as [|a s IH]; [reflexivity|]. simpl.
  destruct (Ascii.eqb a c) eqn:Ha; [exact IH|]. simpl. by rewrite Ha.
Qed.

Lemma strip_delimiter_clean v : has_delimiter (strip_delimiter v) = false.
Proof. destruct v; try reflexivity. apply remove_char_occurs. Qed.

Lemma strip_delimiter_other v : (∀ s, v ≠ SStr s) → strip_delimiter v = v.
Proof. destruct v; naive_solver. Qed.

Lemma loads_load_event w table columns data :
  loads (new_events w (postgrez_load table data columns w))
  = if String.eqb table "contacts" || String.eqb table "transcripts"
       || String.eqb table "enhanced_transcripts"
    then [(table, columns, data)] else [].
Proof.
  unfold new_events, postgrez_load.
  repeat (case_match; world_simpl; rewrite ?drop_app_length; try reflexivity);
    simpl in *; try done.
  by rewrite drop_all.
Qed.

Lemma parse_transcript_run E filename t w :
  fs w !! filename = Some (TranscriptFile t) →
  parse_transcript E filename w
  = match recording_messages E t with
    | [] => raise IndexError
    | first :: _ =>
        load_rows "transcripts" (keys first) (recording_messages E t) sanitize
    end (mkWorld (fs w) (db_contacts w) (db_transcripts w)
           (db_enhanced_transcripts w)
           (trace w ++ [Log (InfoParsingTranscriptFile filename)])).
Proof.
  intros Hf. unfold parse_transcript, read_jason. monad_unfold. world_simpl.
  by rewrite Hf.
Qed.

(** C4, as stated, fails for the enhanced summary: a summary value that
    holds the delimiter reaches the loader with the delimiter in it. *)
Lemma enhanced_summary_delimiter_counterexample :
  let r := enhanced_transcripts piped_env one_transcript_world in
  r = Ok tt (final r)
  ∧ loads (new_events one_transcript_world r)
    = [("enhanced_transcripts", ["contact_id"; "first_message"],
        [[SInt 5; SStr "a|b"]])]
  ∧ has_delimiter (SStr "a|b") = true.
Proof. vm_compute. repeat split; reflexivity. Qed.

(** C4 (amended): the rows [parse_transcript] hands to the loader are the
    projected messages with ['|'] removed from every string cell and every
    other cell unchanged, so no cell of them holds the delimiter; this
    happens after the transforms, just before the load.
    [load_enhanced_transcript] hands the summary values over as they are:
    it has no such step. *)
Theorem parse_transcript_sanitized E filename t first rest raw w :
  fs w !! filename = Some (TranscriptFile t) →
  recording_messages E t = first :: rest →
  project_rows (keys first) (first :: rest) = inr raw →
  let r := parse_transcript E filename w in
  let clean := strip_rows raw in
  r = Ok tt (final r)
  ∧ loads (new_events w r) = [("transcripts", keys first, clean)]
  ∧ Forall (Forall (λ v, has_delimiter v = false)) clean
  ∧ Forall2 (Forall2 (λ v v', v' = strip_delimiter v
                              ∧ ((∀ s, v ≠ SStr s) → v' = v))) raw clean
  ∧ ∀ contact_id (summary : row),
      wf summary →
      loads (new_events w (load_enhanced_transcript contact_id summary w))
      = [("enhanced_transcripts", "contact_id" :: keys summary,
          [SInt contact_id :: values summary])].
Proof.
  intros Hf Hm Hp r clean. subst r.
  rewrite (parse_transcript_run E filename t w Hf), Hm.
  unfold load_rows. rewrite Hp, sanitize_map. fold clean.
  split; [reflexivity|]. split; [|split; [|split]].
  - unfold postgrez_load. cbn.
    by erewrite new_events_after by (cbn; reflexivity).
  - subst clean. apply Forall_fmap, Forall_forall. intros row _.
    apply Forall_fmap, Forall_forall. intros v _. apply strip_delimiter_clean.
  - subst clean. apply Forall2_fmap_r, Forall_Forall2_diag, Forall_forall.
    intros row _. apply Forall2_fmap_r, Forall_Forall2_diag, Forall_forall.
    intros v _. split; [done|]. intros Hv. by apply strip_delimiter_other.
  - intros cid summary Hwf.
    rewrite load_enhanced_transcript_ok by done. by rewrite loads_load_event.
Qed.

(** The transcript of contact 7, whose message holds the delimiter. *)
Lemma parse_transcript_sanitized_witness :
  loads (new_events one_file_world
           (parse_transcript echo_env "/out/7_data.txt" one_file_world))
  = [("transcripts", ["contact_id"; "dt"; "message"],
      [[SInt 7; SInt 1; SStr "ab"]])].
Proof.
  destruct (parse_transcript_sanitized echo_env "/out/7_data.txt"
              (mkTranscript 7 JNull)
              [("contact_id", SInt 7); ("dt", SInt 1); ("message", SStr "a|b")]
              [] [[SInt 7; SInt 1; SStr "a|b"]] one_file_world)
    as (_ & H & _); [reflexivity..|].
  exact H.
Defined.

(** C5: what the three operations do on empty input. An identifier list
    with no identifier and a contacts artifact with no record are logged
    and skipped, without an exception and without a call of the loader.
    A transcript whose transformed output has no message is not: reading
    [messages[0]] raises [IndexError]. *)
Theorem empty_input_behaviour E w :
  (∀ contact_ids,
     resolve_contact_ids contact_ids w = [] →
     let r := download_transcripts E contact_ids w in
     r = Ok tt (final r) ∧ new_events w r = [Log WarnNoContactIds])
  ∧ (∀ filename,
       fs w !! filename = Some (ContactsFile []) →
       let r := parse_contacts_file E filename w in
       r = Ok tt (final r)
       ∧ new_events w r = [Log (InfoParsingContactFile filename);
                           Log WarnEmptyContactsFile])
  ∧ (∀ filename t,
       fs w !! filename = Some (TranscriptFile t) →
       recording_messages E t = [] →
       let r := parse_transcript E filename w in
       r = Raise IndexError (final r)
       ∧ new_events w r = [Log (InfoParsingTranscriptFile filename)]
       ∧ loads (new_events w r) = []).
Proof.
  split; [|split].
  - intros cids Hids r. subst r. unfold download_transcripts.
    rewrite bind_unfold.
    assert (match cids with
            | None => gets select_pending_contact_ids
            | Some l => mret l
            end w = Ok [] w) as ->.
    { destruct cids; simpl in *; by rewrite <- Hids. }
    split; [reflexivity|]. unfold new_events. cbn. apply drop_app_length.
  - intros filename Hf r. subst r.
    unfold parse_contacts_file, read_jason. monad_unfold. world_simpl.
    rewrite Hf. split; [reflexivity|]. unfold new_events. cbn.
    rewrite <- app_assoc. apply drop_app_length.
  - intros filename t Hf Hm r. subst r.
    rewrite (parse_transcript_run E filename t w Hf), Hm.
    split; [reflexivity|].
    assert (new_events w
              (raise (A:=unit) IndexError
                 (mkWorld (fs w) (db_contacts w) (db_transcripts w)
                    (db_enhanced_transcripts w)
                    (trace w ++ [Log (InfoParsingTranscriptFile filename)])))
            = [Log (InfoParsingTranscriptFile filename)]) as ->.
    { unfold new_events. cbn. apply drop_app_length. }
    by split.
Qed.

(** A transcript in which the recording transform finds no message. *)
Lemma empty_input_behaviour_witness :
  let r := parse_transcript mute_env "/out/7_data.txt" one_file_world in
  r = Raise IndexError (final r) ∧ loads (new_events one_file_world r) = [].
Proof.
  destruct (empty_input_behaviour mute_env one_file_world) as (_ & _ & H).
  destruct (H "/out/7_data.txt" (mkTranscript 7 JNull)) as (H1 & _ & H3);
    [reflexivity..|].
  split; [exact H1 | exact H3].
Defined.

(* ===================================================================== *)
(** ** C7: the three fields layered on the transformed contact *)
(* ===================================================================== *)

Lemma layer_metadata_spec interaction_type base_file (out : row) :
  let r := layer_metadata interaction_type base_file out in
  get "interaction_type" r = Some (SStr interaction_type)
  ∧ get "transcript_downloaded" r = Some (SBool false)
  ∧ get "load_file" r = Some (SStr base_file)
  ∧ (∀ k, k ∉ metadata_fields → get k r = get k out)
  ∧ keys out `prefix_of` keys r
  ∧ (∀ k, k ∈ keys r ↔ k ∈ keys out ∨ k ∈ metadata_fields).
Proof.
  unfold layer_metadata, metadata_fields. cbn zeta.
  split; [|split; [|split; [|split; [|split]]]].
  - rewrite !get_set_ne by done. apply get_set_eq.
  - rewrite get_set_ne by done. apply get_set_eq.
  - apply get_set_eq.
  - intros k Hk. rewrite !not_elem_of_cons in Hk. destruct Hk as (?&?&?&_).
    by rewrite !get_set_ne by done.
  - etrans; [|apply keys_set_prefix]. etrans; [|apply keys_set_prefix].
    apply keys_set_prefix.
  - intros k. rewrite !elem_of_keys_set, !elem_of_cons, elem_of_nil.
    tauto.
Qed.

Lemma parse_contacts_file_run E filename contact contacts w :
  fs w !! filename = Some (ContactsFile (contact :: contacts)) →
  let base_file := PyStr.basename filename in
  let interaction_type := PyStr.split_first "_" base_file in
  let parsed := parsed_contacts E interaction_type base_file (contact :: contacts) in
  parse_contacts_file E filename w
  = load_rows "contacts"
      (keys (layer_metadata interaction_type base_file
               (contacts_transforms E contact)))
      parsed id
      (mkWorld (fs w) (db_contacts w) (db_transcripts w)
         (db_enhanced_transcripts w)
         (trace w ++ [Log (InfoParsingContactFile filename)])).
Proof.
  intros Hf. unfold parse_contacts_file, read_jason. monad_unfold. world_simpl.
  by rewrite Hf.
Qed.

(** C7: every contact of the artifact goes through the configured
    transform, which is given the raw contact and nothing else; on its
    output the caller sets [interaction_type] (the prefix of the file name
    before the first underscore), [transcript_downloaded] (false) and
    [load_file] (the base name). Whatever the transform put under these
    three keys is replaced, every other key keeps the transform's value,
    and the keys of the transform's output stay in front. The rows handed
    to the loader are the projection of these records. *)
Theorem parse_contacts_file_layers E filename contact contacts w :
  fs w !! filename = Some (ContactsFile (contact :: contacts)) →
  let base_file := PyStr.basename filename in
  let interaction_type := PyStr.split_first "_" base_file in
  let parsed := parsed_contacts E interaction_type base_file (contact :: contacts) in
  let columns := keys (layer_metadata interaction_type base_file
                         (contacts_transforms E contact)) in
  Forall2 (λ raw r,
             let out := contacts_transforms E raw in
             r = layer_metadata interaction_type base_file out
             ∧ get "interaction_type" r = Some (SStr interaction_type)
             ∧ get "transcript_downloaded" r = Some (SBool false)
             ∧ get "load_file" r = Some (SStr base_file)
             ∧ (∀ k, k ∉ metadata_fields → get k r = get k out)
             ∧ keys out `prefix_of` keys r
             ∧ (∀ k, k ∈ keys r ↔ k ∈ keys out ∨ k ∈ metadata_fields))
          (contact :: contacts) parsed
  ∧ ∀ data,
      project_rows columns parsed = inr data →
      let r := parse_contacts_file E filename w in
      r = Ok tt (final r)
      ∧ loads (new_events w r) = [("contacts", columns, data)].
Proof.
  intros Hf base_file interaction_type parsed columns. split.
  - subst parsed. unfold parsed_contacts.
    apply Forall2_fmap_r, Forall_Forall2_diag, Forall_forall.
    intros raw _. cbn zeta. split; [reflexivity|].
    apply layer_metadata_spec.
  - intros data Hp r. subst r.
    rewrite (parse_contacts_file_run E filename contact contacts w Hf).
    fold base_file interaction_type parsed columns.
    unfold load_rows. rewrite Hp. split; [reflexivity|].
    unfold postgrez_load. cbn.
    by erewrite new_events_after by (cbn; reflexivity).
Qed.

(** The contacts of 2019-01-30: two records, five columns each. *)
Lemma parse_contacts_file_layers_witness :
  loads (new_events contacts_file_world
           (parse_contacts_file echo_env "/out/IM_2019-01-30_contacts.txt"
              contacts_file_world))
  = [("contacts",
      ["contact_id"; "agent_id"; "interaction_type"; "transcript_downloaded";
       "load_file"],
      [[SInt 1; SInt 7; SStr "IM"; SBool false;
        SStr "IM_2019-01-30_contacts.txt"];
       [SInt 2; SInt 7; SStr "IM"; SBool false;
        SStr "IM_2019-01-30_contacts.txt"]])].
Proof.
  destruct (parse_contacts_file_layers echo_env "/out/IM_2019-01-30_contacts.txt"
              (JInt 1) [JInt 2] contacts_file_world eq_refl) as (_ & H).
  destruct (H [[SInt 1; SInt 7; SStr "IM"; SBool false;
                SStr "IM_2019-01-30_contacts.txt"];
               [SInt 2; SInt 7; SStr "IM"; SBool false;
                SStr "IM_2019-01-30_contacts.txt"]] eq_refl) as (_ & Hl).
  exact Hl.
Defined.

(* ===================================================================== *)
(** ** C3: one call and one artifact per calendar day *)
(* ===================================================================== *)

Lemma parse_date_midnight s t :
  Dates.parse_date s = Some t → t = Dates.midnight (Dates.day t).
Proof.
  unfold Dates.parse_date. intros H.
  destruct (Dates.fields_go "" s) as [|ys [|ms [|ds [|]]]]; try discriminate.
  destruct (PyStr.digits_val 0 false ys) as [y|]; [|discriminate].
  destruct (PyStr.digits_val 0 false ms) as [m|]; [|discriminate].
  destruct (PyStr.digits_val 0 false ds) as [d|]; [|discriminate].
  cbn [mbind option_bind] in H.
  destruct (_ && _) in H; [|discriminate]. by injection H as <-.
Qed.










(* ===================================================================== *)
(** ** C2: the contacts reconciler *)
(* ===================================================================== *)

Lemma elem_of_select_load_files f w :
  f ∈ select_load_files w
  ↔ ∃ r, r ∈ db_contacts w ∧ get "load_file" r = Some (SStr f).
Proof.
  unfold select_load_files. rewrite elem_of_remove_dups, list_elem_of_omap.
  split; intros (r & Hr & Hf); exists r; (split; [done|]).
  - unfold row_load_file in Hf. by repeat (case_match; simplify_eq).
  - unfold row_load_file. by rewrite Hf.
Qed.

Lemma get_contacts_to_load_run E w :
  get_contacts_to_load E w
  = Ok (elements ((list_to_set (matching_names E Regex.contacts_reg w) : gset string)
                  ∖ list_to_set (select_load_files w))) w.
Proof. reflexivity. Qed.

(** Loading the records of a contacts artifact persists its base name as
    a [load_file] value. *)
Lemma parse_contacts_file_persists E filename contact contacts w w' :
  fs w !! filename = Some (ContactsFile (contact :: contacts)) →
  parse_contacts_file E filename w = Ok tt w' →
  fs w' = fs w ∧ PyStr.basename filename ∈ select_load_files w'.
Proof.
  intros Hf Hrun.
  rewrite (parse_contacts_file_run E filename contact contacts w Hf) in Hrun.
  unfold load_rows in Hrun.
  set (base := PyStr.basename filename) in *.
  set (it := PyStr.split_first "_" base) in *.
  set (first := layer_metadata it base (contacts_transforms E contact)) in *.
  destruct (project_rows (keys first) _) as [|data] eqn:Hp; [done|].
  unfold parsed_contacts in Hp. cbn [fmap list_fmap project_rows] in Hp.
  fold first in Hp.
  destruct (project (keys first) first) as [|vs] eqn:Hv; [done|].
  destruct (project_rows (keys first) _) as [|vss]; [done|].
  injection Hp as <-.
  unfold postgrez_load in Hrun. cbn in Hrun. injection Hrun as <-.
  split; [reflexivity|].
  apply elem_of_select_load_files. exists (make_row (keys first) vs).
  split.
  - cbn. apply elem_of_app. right. by left.
  - unfold make_row. rewrite (get_zip_project _ first vs "load_file" Hv).
    + apply layer_metadata_spec.
    + apply get_is_Some_keys. eexists. apply layer_metadata_spec.
Qed.

(** C2: [get_contacts_to_load] changes nothing and returns, without
    repetition, exactly the names of the files matching the contacts
    pattern that are not among the persisted [load_file] values. Its
    result depends on the artifact store and the contacts relation only,
    so two runs with nothing new in between return the same; a name that
    is persisted as a [load_file] value is not returned, in particular
    the name of an artifact once its records are loaded. *)
Theorem get_contacts_to_load_difference E w :
  ∃ to_load,
    get_contacts_to_load E w = Ok to_load w
    ∧ NoDup to_load
    ∧ (list_to_set to_load : gset string)
      = list_to_set (matching_names E Regex.contacts_reg w)
        ∖ list_to_set (select_load_files w)
    ∧ (∀ f, f ∈ to_load ↔
            f ∈ matching_names E Regex.contacts_reg w
            ∧ ¬ ∃ r, r ∈ db_contacts w ∧ get "load_file" r = Some (SStr f))
    ∧ (get_contacts_to_load E ;; get_contacts_to_load E) w = Ok to_load w
    ∧ (∀ w2, fs w2 = fs w → db_contacts w2 = db_contacts w →
             get_contacts_to_load E w2 = Ok to_load w2)
    ∧ (∀ f r, r ∈ db_contacts w → get "load_file" r = Some (SStr f) →
              f ∉ to_load)
    ∧ (∀ filename contact contacts w',
         fs w !! filename = Some (ContactsFile (contact :: contacts)) →
         parse_contacts_file E filename w = Ok tt w' →
         ∃ to_load', get_contacts_to_load E w' = Ok to_load' w'
                     ∧ (PyStr.basename filename ∉ to_load')
                     ∧ to_load' ⊆ to_load).
Proof.
  eexists. split; [apply get_contacts_to_load_run|].
  assert (Hin : ∀ w0 f,
            f ∈ elements ((list_to_set (matching_names E Regex.contacts_reg w0)
                            : gset string) ∖ list_to_set (select_load_files w0))
            ↔ f ∈ matching_names E Regex.contacts_reg w0
              ∧ f ∉ select_load_files w0).
  { intros w0 f. rewrite elem_of_elements, elem_of_difference.
    by rewrite !elem_of_list_to_set. }
  split; [apply NoDup_elements|].
  split; [apply list_to_set_elements_L|].
  split; [|split; [|split; [|split]]].
  - intros f. rewrite Hin. by rewrite elem_of_select_load_files.
  - rewrite bind_unfold, get_contacts_to_load_run.
    apply get_contacts_to_load_run.
  - intros w2 Hfs Hdb. rewrite get_contacts_to_load_run.
    unfold matching_names, search_path, select_load_files.
    by rewrite Hfs, Hdb.
  - intros f r Hr Hf. rewrite Hin. intros [_ Hn]. apply Hn.
    apply elem_of_select_load_files. by exists r.
  - intros filename contact contacts w' Hf Hrun.
    destruct (parse_contacts_file_persists E filename contact contacts w w' Hf Hrun)
      as [Hfs Hbase].
    eexists. split; [apply get_contacts_to_load_run|]. split.
    + rewrite Hin. by intros [_ Hn].
    + intros f. rewrite !Hin. intros [Hm Hn]. split.
      * unfold matching_names, search_path in *. by rewrite <- Hfs.
      * intros Hl. apply Hn. clear Hn Hm Hin Hbase.
        apply elem_of_select_load_files in Hl as (r & Hr & Hg).
        apply elem_of_select_load_files. exists r. split; [|done].
        rewrite (parse_contacts_file_run E filename contact contacts w Hf) in Hrun.
        unfold load_rows in Hrun. case_match; [done|].
        unfold postgrez_load in Hrun. cbn in Hrun. injection Hrun as <-.
        cbn. apply elem_of_app. by left.
Qed.

(** The contacts of 2019-01-30 are pending until they are loaded. *)
Lemma get_contacts_to_load_difference_witness :
  get_contacts_to_load echo_env contacts_file_world
  = Ok ["IM_2019-01-30_contacts.txt"] contacts_file_world
  ∧ ∃ w' to_load',
      parse_contacts_file echo_env "/out/IM_2019-01-30_contacts.txt"
        contacts_file_world = Ok tt w'
      ∧ get_contacts_to_load echo_env w' = Ok to_load' w'
      ∧ "IM_2019-01-30_contacts.txt" ∉ to_load'.
Proof.
  destruct (get_contacts_to_load_difference echo_env contacts_file_world)
    as (l & Hrun & _ & _ & _ & _ & _ & _ & Hdyn).
  split; [vm_compute; reflexivity|].
  destruct (Hdyn "/out/IM_2019-01-30_contacts.txt" (JInt 1) [JInt 2]
              (final (parse_contacts_file echo_env
                        "/out/IM_2019-01-30_contacts.txt" contacts_file_world)))
    as (l' & Hl' & Hn & _).
  - reflexivity.
  - vm_compute. reflexivity.
  - eexists _, l'. split; [vm_compute; reflexivity|]. split; [exact Hl' | exact Hn].
Defined.

(* ===================================================================== *)
(** ** C6: the transcripts reconciler *)
(* ===================================================================== *)

Lemma string_app_assoc (a b c : string) : (a +:+ b) +:+ c = a +:+ (b +:+ c).
Proof.
  induction a as [|x a IH]; [reflexivity|].
  change (String x ((a +:+ b) +:+ c) = String x (a +:+ (b +:+ c))).
  by rewrite IH.
Qed.

Lemma string_app_nil_r (a : string) : a +:+ "" = a.
Proof.
  induction a as [|x a IH]; [reflexivity|].
  change (String x (a +:+ "") = String x a). by rewrite IH.
Qed.

Lemma occurs_app c (a b : string) :
  PyStr.occurs c (a +:+ b) = PyStr.occurs c a || PyStr.occurs c b.
Proof.
  induction a as [|x a IH]; [reflexivity|].
  change (PyStr.occurs c (String x (a +:+ b))
          = PyStr.occurs c (String x a) || PyStr.occurs c b).
  cbn [PyStr.occurs]. rewrite IH. by rewrite orb_assoc.
Qed.

Lemma basename_go_no_slash acc s :
  PyStr.occurs "/" acc = false →
  PyStr.occurs "/" (PyStr.basename_go acc s) = false.
Proof.
  revert acc. induction s as [|a s IH]; intros acc Hacc; [exact Hacc|].
  cbn [PyStr.basename_go]. destruct (Ascii.eqb a "/") eqn:Ha.
  - by apply IH.
  - apply IH. rewrite occurs_app, Hacc. cbn. by rewrite Ha.
Qed.

Lemma basename_go_id acc s :
  PyStr.occurs "/" s = false → PyStr.basename_go acc s = acc +:+ s.
Proof.
  revert acc. induction s as [|a s IH]; intros acc Hs.
  - cbn [PyStr.basename_go]. by rewrite string_app_nil_r.
  - cbn in Hs. apply orb_false_iff in Hs as [Ha Hs].
    cbn [PyStr.basename_go]. rewrite Ha, IH by done.
    by rewrite string_app_assoc.
Qed.

(** [os.path.basename] of a base name is that name. *)
Lemma basename_idem p : PyStr.basename (PyStr.basename p) = PyStr.basename p.
Proof.
  unfold PyStr.basename at 1. rewrite basename_go_id; [reflexivity|].
  by apply basename_go_no_slash.
Qed.

Lemma elem_of_select_transcript_contact_ids n w :
  n ∈ select_transcript_contact_ids w
  ↔ ∃ r, r ∈ db_transcripts w ∧ row_contact_id r = Some n.
Proof.
  unfold select_transcript_contact_ids.
  by rewrite elem_of_remove_dups, list_elem_of_omap.
Qed.

(** The loop over the file names: every name that parses and is not
    persisted is appended, in order. *)
Lemma collect_to_load_parsed loaded (files to_load : list string) :
  Forall (λ f, is_Some (contact_id_of_filename (PyStr.basename f))) files →
  collect_to_load loaded files to_load
  = inr (to_load ++ filter (λ name, pending_name loaded name = true)
                           (PyStr.basename <$> files)).
Proof.
  intros Hall. revert to_load.
  induction Hall as [|f files [n Hn] _ IH]; intros to_load.
  - cbn. by rewrite app_nil_r.
  - assert (Hp : pending_name loaded (PyStr.basename f)
                 = bool_decide (n ∉ loaded))
      by (unfold pending_name; by rewrite Hn).
    cbn [collect_to_load fmap list_fmap]. rewrite Hn, filter_cons.
    destruct (bool_decide (n ∉ loaded)) eqn:Hb.
    + rewrite decide_True by done. rewrite IH. by rewrite <- app_assoc.
    + rewrite decide_False by (by rewrite Hp). apply IH.
Qed.

(** The loop stops at the first name whose identifier does not parse. *)
Lemma collect_to_load_unparsed loaded (done : list string) bad rest to_load :
  Forall (λ f, is_Some (contact_id_of_filename (PyStr.basename f))) done →
  contact_id_of_filename (PyStr.basename bad) = None →
  collect_to_load loaded (done ++ bad :: rest) to_load
  = inl (PyStr.basename bad).
Proof.
  intros Hall Hbad. revert to_load.
  induction Hall as [|f files [n Hn] _ IH]; intros to_load.
  - cbn. by rewrite Hbad.
  - cbn [collect_to_load app]. rewrite Hn. destruct (bool_decide _); apply IH.
Qed.

Lemma get_transcripts_to_load_run E w :
  get_transcripts_to_load E w
  = match collect_to_load (select_transcript_contact_ids w)
            (matching_names E Regex.transcripts_reg w) [] with
    | inl s => Raise (ValueError s) w
    | inr to_load =>
        Ok to_load
           (mkWorld (fs w) (db_contacts w) (db_transcripts w)
              (db_enhanced_transcripts w)
              (trace w ++ [Log (InfoTranscriptsToLoad (length to_load))]))
    end.
Proof.
  unfold get_transcripts_to_load. monad_unfold.
  fold (matching_names E Regex.transcripts_reg w).
  by destruct (collect_to_load _ _ _).
Qed.

Lemma matching_names_basename E r w :
  PyStr.basename <$> matching_names E r w = matching_names E r w.
Proof.
  unfold matching_names. rewrite <- list_fmap_compose.
  apply list_fmap_ext. intros _ p _. apply basename_idem.
Qed.

Lemma Forall_basename_fixed (P : string → Prop) (l : list string) :
  PyStr.basename <$> l = l → Forall P l →
  Forall (λ f, P (PyStr.basename f)) l.
Proof.
  intros Hb Hall. apply Forall_forall. intros f Hf.
  rewrite Forall_forall in Hall. apply Hall. rewrite <- Hb.
  by apply list_elem_of_fmap_2.
Qed.

(** C6, as stated, fails: a file named [_data.txt] matches the pattern
    (its digits are optional), its identifier does not parse, and the
    reconciler raises instead of returning. *)
Lemma get_transcripts_to_load_counterexample :
  matching_names echo_env Regex.transcripts_reg stray_file_world = ["_data.txt"]
  ∧ contact_id_of_filename "_data.txt" = None
  ∧ get_transcripts_to_load echo_env stray_file_world
    = Raise (ValueError "_data.txt") stray_file_world.
Proof. vm_compute. repeat split; reflexivity. Qed.

(** C6 (amended): when the identifier of every file that matches the
    pattern parses, [get_transcripts_to_load] returns, in listing order,
    exactly the names of the matching files whose identifier is not among
    the persisted [contact_id] values of the transcripts relation: every
    returned name has an identifier absent from that relation and every
    matching file with such an identifier is returned. (When some matching
    name does not parse, it raises [ValueError] at the first such name and
    returns nothing.) *)
Theorem get_transcripts_to_load_parsed E w :
  let names := matching_names E Regex.transcripts_reg w in
  let loaded := select_transcript_contact_ids w in
  let r := get_transcripts_to_load E w in
  (Forall (λ name, is_Some (contact_id_of_filename name)) names →
   ∃ to_load,
     r = Ok to_load (final r)
     ∧ to_load = filter (λ name, pending_name loaded name = true) names
     ∧ (∀ name, name ∈ to_load ↔
          name ∈ names
          ∧ ∃ contact_id,
              contact_id_of_filename name = Some contact_id
              ∧ ¬ ∃ row, row ∈ db_transcripts w
                         ∧ row_contact_id row = Some contact_id)
     ∧ new_events w r = [Log (InfoTranscriptsToLoad (length to_load))])
  ∧ (∀ done bad rest,
       names = done ++ bad :: rest →
       Forall (λ name, is_Some (contact_id_of_filename name)) done →
       contact_id_of_filename bad = None →
       r = Raise (ValueError bad) w).
Proof.
  intros names loaded r. split.
  - intros Hall. subst r. rewrite get_transcripts_to_load_run.
    fold names loaded.
    assert (Hb : PyStr.basename <$> names = names)
      by apply matching_names_basename.
    rewrite collect_to_load_parsed, Hb.
    2:{ by apply (Forall_basename_fixed (λ name, is_Some (contact_id_of_filename name))). }
    eexists. split; [reflexivity|]. split; [reflexivity|]. split.
    + intros name. cbn [app]. rewrite list_elem_of_filter. unfold loaded.
      unfold pending_name. split.
      * intros [Hp Hin]. split; [done|].
        destruct (contact_id_of_filename name) as [n|]; [|done].
        exists n. split; [done|]. apply bool_decide_eq_true in Hp.
        by rewrite <- elem_of_select_transcript_contact_ids.
      * intros [Hin (n & Hn & Hnot)]. split; [|done]. rewrite Hn.
        apply bool_decide_eq_true.
        by rewrite elem_of_select_transcript_contact_ids.
    + unfold new_events. cbn. apply drop_app_length.
  - intros done bad rest Hnames Hall Hbad. subst r.
    rewrite get_transcripts_to_load_run. fold names loaded.
    assert (Hb : PyStr.basename <$> names = names)
      by apply matching_names_basename.
    rewrite Hnames in Hb. rewrite fmap_app, fmap_cons in Hb.
    apply app_inj_1 in Hb as [Hd Hb]; [|by rewrite length_fmap].
    injection Hb as Hbb _.
    rewrite Hnames, (collect_to_load_unparsed loaded done bad rest []).
    + by rewrite Hbb.
    + by apply (Forall_basename_fixed (λ name, is_Some (contact_id_of_filename name))).
    + by rewrite Hbb.
Qed.

(** Two transcripts on disk, the one of contact 7 already loaded. *)
Lemma get_transcripts_to_load_parsed_witness :
  ∃ w', get_transcripts_to_load echo_env two_files_world = Ok ["8_data.txt"] w'.
Proof.
  destruct (get_transcripts_to_load_parsed echo_env two_files_world)
    as [H _].
  destruct H as (to_load & Hr & Hl & _).
  - vm_compute. repeat constructor; by eexists.
  - eexists. rewrite Hr. f_equal. rewrite Hl. vm_compute. reflexivity.
Defined.

(* ===================================================================== *)
(** ** C10: [main] for an interaction type other than ['IM'] *)
(* ===================================================================== *)

Lemma contacts_only_refl w : contacts_only w w.
Proof.
  repeat split. exists []. by rewrite app_nil_r.
Qed.

Lemma contacts_only_trans w1 w2 w3 :
  contacts_only w1 w2 → contacts_only w2 w3 → contacts_only w1 w3.
Proof.
  intros (Ht1 & He1 & evs1 & Htr1 & Hf1) (Ht2 & He2 & evs2 & Htr2 & Hf2).
  split; [congruence|]. split; [congruence|].
  exists (evs1 ++ evs2). split.
  - by rewrite Htr2, Htr1, <- app_assoc.
  - by apply Forall_app.
Qed.

Lemma keeps_ret {A} (a : A) : keeps (mret a).
Proof. intros w. apply contacts_only_refl. Qed.

Lemma keeps_raise {A} e : keeps (raise (A:=A) e).
Proof. intros w. apply contacts_only_refl. Qed.

Lemma keeps_gets {A} (f : world → A) : keeps (gets f).
Proof. intros w. apply contacts_only_refl. Qed.

Lemma keeps_bind {A B} (m : M A) (k : A → M B) :
  keeps m → (∀ a, keeps (k a)) → keeps (m ≫= k).
Proof.
  intros Hm Hk w. rewrite bind_unfold. specialize (Hm w).
  destruct (m w) as [a w'|e w']; cbn [final] in *; [|done].
  eapply contacts_only_trans; [exact Hm | apply Hk].
Qed.

Lemma keeps_for_each {A} (l : list A) (body : A → M unit) :
  (∀ x, keeps (body x)) → keeps (for_each l body).
Proof.
  intros Hb. induction l as [|x l IH]; cbn [for_each].
  - apply keeps_ret.
  - apply keeps_bind; [apply Hb | intros _; exact IH].
Qed.

Lemma keeps_emit e : transcript_stage_event e = false → keeps (emit e).
Proof.
  intros He w. unfold emit. cbn. repeat split.
  exists [e]. split; [done|]. by constructor.
Qed.

Lemma keeps_read_jason filepath : keeps (read_jason filepath).
Proof.
  intros w. unfold read_jason. destruct (fs w !! filepath); apply contacts_only_refl.
Qed.

Lemma keeps_save_contacts E contacts filename :
  keeps (save_data E (ContactsFile contacts) filename).
Proof.
  intros w. unfold save_data, write_jason. cbn. repeat split.
  eexists. split; [done|]. by constructor.
Qed.

Lemma keeps_load_contacts columns rows clean :
  keeps (load_rows "contacts" columns rows clean).
Proof.
  intros w. unfold load_rows. destruct (project_rows columns rows).
  - apply contacts_only_refl.
  - unfold postgrez_load. cbn. repeat split.
    eexists. split; [done|]. by constructor.
Qed.

Lemma keeps_get_contacts E interaction_type window :
  keeps (get_contacts E interaction_type window).
Proof.
  apply keeps_bind; [by apply keeps_emit | intros _; apply keeps_ret].
Qed.

Lemma keeps_download_contacts E interaction_type start_date end_date :
  keeps (download_contacts E interaction_type start_date end_date).
Proof.
  assert (Hd : keeps (download_default E interaction_type)).
  { apply keeps_bind; [apply keeps_get_contacts|].
    intros contacts. apply keeps_save_contacts. }
  unfold download_contacts.
  destruct start_date as [sd|], end_date as [ed|]; try exact Hd.
  destruct (truthy (Some sd) && truthy (Some ed)); [|exact Hd].
  destruct (Dates.generate_date_range sd ed); [|apply keeps_raise].
  apply keeps_for_each. intros dt. unfold download_day.
  apply keeps_bind; [apply keeps_get_contacts|].
  intros contacts. apply keeps_save_contacts.
Qed.

Lemma keeps_parse_contacts_file E filename :
  keeps (parse_contacts_file E filename).
Proof.
  unfold parse_contacts_file.
  apply keeps_bind; [by apply keeps_emit|]. intros _.
  apply keeps_bind; [apply keeps_read_jason|]. intros [contacts|t].
  - destruct contacts as [|c cs]; [by apply keeps_emit|].
    destruct (parsed_contacts _ _ _ _); [apply keeps_raise|].
    apply keeps_load_contacts.
  - apply keeps_raise.
Qed.

Lemma keeps_contacts_stage E interaction_type start_date end_date :
  keeps (contacts_stage E interaction_type start_date end_date).
Proof.
  unfold contacts_stage.
  apply keeps_bind; [apply keeps_download_contacts|]. intros _.
  apply keeps_bind.
  - unfold get_contacts_to_load.
    apply keeps_bind; [apply keeps_gets|]. intros ?.
    apply keeps_bind; [apply keeps_gets|]. intros ?. apply keeps_ret.
  - intros l. apply keeps_for_each. intros f. apply keeps_parse_contacts_file.
Qed.

Lemma omap_Forall_None {A B} (f : A → option B) (l : list A) :
  Forall (λ x, f x = None) l → omap f l = [].
Proof.
  induction 1 as [|x l Hx _ IH]; [reflexivity|]. cbn. by rewrite Hx.
Qed.

(** C10: for an interaction type other than ['IM'], [main] is the
    contacts stages and nothing more: it ends where the loading of the
    contacts ends (or at the usage warning, when only one date is given).
    The transcripts and enhanced_transcripts relations are left as they
    were, and no event of the transcript download, transcript loading or
    enhancement stages occurs: no transcript request, no marker update, no
    load into another relation than contacts. *)
Theorem main_not_IM E interaction_type start_date end_date w :
  interaction_type ≠ "IM" →
  let r := main E interaction_type start_date end_date w in
  let new := new_events w r in
  r = match resolve_dates E start_date end_date with
      | (Some sd, Some ed) =>
          contacts_stage E interaction_type (Some sd) (Some ed) w
      | _ => log WarnProvideBothDates w
      end
  ∧ db_transcripts (final r) = db_transcripts w
  ∧ db_enhanced_transcripts (final r) = db_enhanced_transcripts w
  ∧ Forall (λ e, transcript_stage_event e = false) new
  ∧ recordings_calls new = []
  ∧ marker_updates new = []
  ∧ Forall (λ '(table, _, _), table = "contacts") (loads new).
Proof.
  intros Hne r new.
  assert (Heqb : String.eqb interaction_type "IM" = false)
    by by apply String.eqb_neq.
  assert (Hr : r = match resolve_dates E start_date end_date with
                   | (Some sd, Some ed) =>
                       contacts_stage E interaction_type (Some sd) (Some ed) w
                   | _ => log WarnProvideBothDates w
                   end).
  { subst r. unfold main, resolve_dates.
    destruct start_date as [sd|], end_date as [ed|]; try reflexivity;
      cbn zeta; rewrite Heqb; cbn [negb]; apply bind_ret_unit. }
  assert (Hk : contacts_only w (final r)).
  { rewrite Hr. destruct (resolve_dates E start_date end_date) as [[sd|] [ed|]].
    - apply keeps_contacts_stage.
    - by apply keeps_emit.
    - by apply keeps_emit.
    - by apply keeps_emit. }
  destruct Hk as (Ht & He & evs & Htr & Hevs).
  assert (Hnew : new = evs) by (by apply new_events_app).
  split; [exact Hr|]. split; [exact Ht|]. split; [exact He|].
  rewrite Hnew. split; [exact Hevs|]. split; [|split].
  - apply omap_Forall_None. eapply Forall_impl; [exact Hevs|].
    by intros [] ?.
  - apply omap_Forall_None. eapply Forall_impl; [exact Hevs|].
    by intros [] ?.
  - clear -Hevs. induction Hevs as [|e evs He _ IH]; [constructor|].
    destruct e; try exact IH. cbn. constructor; [|exact IH].
    cbn in He. apply negb_false_iff in He. by apply String.eqb_eq in He.
Qed.

(** A run for ['Voice'] with no date: yesterday's contacts are fetched
    and loaded, and the run ends there. *)
Lemma main_not_IM_witness :
  let r := main echo_env "Voice" None None empty_world in
  r = Ok tt (final r)
  ∧ db_transcripts (final r) = []
  ∧ db_enhanced_transcripts (final r) = []
  ∧ recordings_calls (new_events empty_world r) = []
  ∧ length (db_contacts (final r)) = 2%nat.
Proof.
  destruct (main_not_IM echo_env "Voice" None None empty_world)
    as (_ & Ht & He & _ & Hc & _); [done|].
  split; [vm_compute; reflexivity|].
  split; [exact Ht|]. split; [exact He|]. split; [exact Hc|].
  vm_compute. reflexivity.
Defined.

(* ===================================================================== *)
(** ** Further properties of contacts.py *)
(* ===================================================================== *)

(** *** [download_contacts] without a range *)

(** When a date is missing or empty, [download_contacts] makes a single
    call without a window and files the result under yesterday's date;
    no relation is touched. *)
Theorem download_contacts_default E interaction_type start_date end_date w :
  truthy start_date && truthy end_date = false →
  let r := download_contacts E interaction_type start_date end_date w in
  r = Ok tt (final r)
  ∧ new_events w r
    = [GetContacts interaction_type None;
       WriteJson (yesterday_path E interaction_type)
         (ContactsFile (ice_get_contacts E interaction_type None))]
  ∧ fs (final r)
    = <[yesterday_path E interaction_type
        := ContactsFile (ice_get_contacts E interaction_type None)]> (fs w)
  ∧ db_contacts (final r) = db_contacts w
  ∧ db_transcripts (final r) = db_transcripts w
  ∧ db_enhanced_transcripts (final r) = db_enhanced_transcripts w.
Proof.
  intros Ht r.
  assert (Hr : r = download_default E interaction_type w).
  { subst r. unfold download_contacts.
    destruct start_date as [sd|], end_date as [ed|]; try reflexivity.
    by rewrite Ht. }
  rewrite Hr. unfold download_default, get_contacts, save_data, write_jason.
  monad_unfold. world_simpl. split; [reflexivity|]. split; [|done].
  unfold new_events. world_simpl. rewrite <- app_assoc. apply drop_app_length.
Qed.

(** An empty start date with an end date: the range is ignored. *)
Lemma download_contacts_default_witness :
  new_events empty_world
    (download_contacts echo_env "Voice" (Some "") (Some "2019-01-05") empty_world)
  = [GetContacts "Voice" None;
     WriteJson "/out/Voice_2019-04-13_contacts.txt" (ContactsFile [JInt 1; JInt 2])].
Proof.
  destruct (download_contacts_default echo_env "Voice" (Some "") (Some "2019-01-05")
              empty_world) as (_ & H & _); [reflexivity|].
  rewrite H. vm_compute. reflexivity.
Defined.

(** *** [main] with one date only *)

(** With exactly one of the two dates, [main] logs the usage warning and
    returns: nothing is requested, written or loaded, whatever the
    interaction type. *)
Theorem main_one_date E interaction_type start_date end_date w :
  (start_date = None ∧ end_date ≠ None) ∨ (start_date ≠ None ∧ end_date = None) →
  let r := main E interaction_type start_date end_date w in
  r = Ok tt (final r)
  ∧ new_events w r = [Log WarnProvideBothDates]
  ∧ fs (final r) = fs w
  ∧ db_contacts (final r) = db_contacts w
  ∧ db_transcripts (final r) = db_transcripts w
  ∧ db_enhanced_transcripts (final r) = db_enhanced_transcripts w.
Proof.
  intros Hd r.
  assert (Hr : r = log WarnProvideBothDates w).
  { subst r. unfold main.
    destruct start_date, end_date; try reflexivity; intuition congruence. }
  rewrite Hr. unfold log, emit. world_simpl.
  split; [reflexivity|]. split; [|done].
  unfold new_events. world_simpl. apply drop_app_length.
Qed.

Lemma main_one_date_witness :
  main echo_env "IM" None (Some "2019-01-05") empty_world
  = Ok tt (mkWorld ∅ [] [] [] [Log WarnProvideBothDates]).
Proof.
  destruct (main_one_date echo_env "IM" None (Some "2019-01-05") empty_world)
    as (H & _); [by left|].
  rewrite H. vm_compute. reflexivity.
Defined.

(** *** Surplus transcripts *)

(** Only a short response is an error: when the service returns more
    transcripts than requested, the chunk succeeds, the first [|chunk|]
    transcripts are filed and the others are dropped. *)
Theorem download_chunk_surplus E chunk w :
  (length chunk < length (ice_get_recordings E chunk))%nat →
  let r := download_chunk E chunk w in
  let written := saves (new_events w r) in
  r = Ok tt (final r)
  ∧ written
    = (λ '(contact_id, t), (transcript_path E contact_id, TranscriptFile t))
        <$> zip chunk (take (length chunk) (ice_get_recordings E chunk))
  ∧ length written = length chunk
  ∧ marker_updates (new_events w r) = [chunk].
Proof.
  intros Hlen r written. subst written r.
  assert (Hs : short E chunk = false).
  { unfold short. apply bool_decide_eq_false. lia. }
  rewrite download_chunk_whole by done. cbn [final].
  rewrite (new_events_app w (Ok tt (chunk_world E chunk w)) (chunk_events E chunk))
    by reflexivity.
  rewrite saves_chunk, marker_updates_chunk.
  split; [reflexivity|]. split; [|split; [|reflexivity]].
  - f_equal. symmetry. apply zip_with_take_r.
  - rewrite length_fmap, length_zip. lia.
Qed.

Lemma download_chunk_surplus_witness :
  let r := download_chunk generous_env [4; 5] empty_world in
  r = Ok tt (final r)
  ∧ (saves (new_events empty_world r)).*1 = ["/out/4_data.txt"; "/out/5_data.txt"].
Proof.
  destruct (download_chunk_surplus generous_env [4; 5] empty_world)
    as (H1 & H2 & _); [vm_compute; lia|].
  split; [exact H1|]. rewrite H2. vm_compute. reflexivity.
Defined.

(** *** What [download_transcripts] does to the contacts relation *)

Lemma mark_row_other ids (r : row) k :
  k ≠ "transcript_downloaded" → get k (mark_row ids r) = get k r.
Proof.
  intros Hk. unfold mark_row. destruct (contact_id_in ids r); [|done].
  by apply get_set_ne.
Qed.

Lemma mark_row_contact_id ids (r : row) :
  row_contact_id (mark_row ids r) = row_contact_id r.
Proof. unfold row_contact_id. by rewrite mark_row_other. Qed.

Lemma mark_row_flag ids (r : row) :
  get "transcript_downloaded" (mark_row ids r)
  = if contact_id_in ids r then Some (SBool true)
    else get "transcript_downloaded" r.
Proof.
  unfold mark_row. destruct (contact_id_in ids r); [|done]. apply get_set_eq.
Qed.

Lemma mark_all_other chunks (r : row) k :
  k ≠ "transcript_downloaded" → get k (mark_all chunks r) = get k r.
Proof.
  intros Hk. unfold mark_all. revert r.
  induction chunks as [|c cs IH]; intros r; [done|].
  cbn [foldl]. rewrite IH. by apply mark_row_other.
Qed.


Lemma contact_id_in_mark_row ids ids' (r : row) :
  contact_id_in ids (mark_row ids' r) = contact_id_in ids r.
Proof. unfold contact_id_in. by rewrite mark_row_contact_id. Qed.

Lemma existsb_pointwise {A} (f g : A → bool) (l : list A) :
  (∀ x, f x = g x) → existsb f l = existsb g l.
Proof.
  intros H. induction l as [|x l IH]; [reflexivity|]. cbn. by rewrite H, IH.
Qed.

(** The flag after the updates: true when some update names the row,
    what it was otherwise. *)
Lemma mark_all_flag chunks (r : row) :
  get "transcript_downloaded" (mark_all chunks r)
  = if existsb (λ ids, contact_id_in ids r) chunks then Some (SBool true)
    else get "transcript_downloaded" r.
Proof.
  unfold mark_all. revert r.
  induction chunks as [|c cs IH]; intros r; [done|].
  cbn [foldl existsb]. rewrite IH.
  rewrite (existsb_pointwise _ (λ ids, contact_id_in ids r))
    by (intros ids; apply contact_id_in_mark_row).
  rewrite mark_row_flag.
  destruct (contact_id_in c r); cbn [orb]; [by destruct (existsb _ _)|done].
Qed.

Lemma foldl_mark_rows chunks (rows : list row) :
  foldl (λ rows ids, mark_row ids <$> rows) rows chunks
  = mark_all chunks <$> rows.
Proof.
  unfold mark_all. revert rows.
  induction chunks as [|c cs IH]; intros rows; cbn [foldl].
  - by rewrite list_fmap_id.
  - rewrite IH, <- list_fmap_compose. reflexivity.
Qed.

(** The world after the loop over the chunks, field by field. *)
Lemma for_each_chunks_world E chunks w :
  let w' := final (for_each chunks (download_chunk E) w) in
  db_contacts w' = mark_all (done_chunks E chunks) <$> db_contacts w
  ∧ db_transcripts w' = db_transcripts w
  ∧ db_enhanced_transcripts w' = db_enhanced_transcripts w.
Proof.
  revert w. induction chunks as [|c cs IH]; intros w; cbn [for_each done_chunks].
  - cbn. by rewrite list_fmap_id.
  - rewrite bind_unfold. destruct (short E c) eqn:Hs.
    + rewrite download_chunk_short by done. cbn. by rewrite list_fmap_id.
    + rewrite download_chunk_whole by done.
      destruct (IH (chunk_world E c w)) as (Hc & Ht & He).
      cbn zeta in *. rewrite Hc, Ht, He. unfold chunk_world. world_simpl.
      split; [|done]. rewrite <- list_fmap_compose. reflexivity.
Qed.

Lemma download_transcripts_world E contact_ids w :
  let w' := final (download_transcripts E contact_ids w) in
  let chunks := chunker (resolve_contact_ids contact_ids w) 20 in
  db_contacts w' = mark_all (done_chunks E chunks) <$> db_contacts w
  ∧ db_transcripts w' = db_transcripts w
  ∧ db_enhanced_transcripts w' = db_enhanced_transcripts w.
Proof.
  intros w' chunks. subst w'. unfold download_transcripts.
  rewrite bind_unfold.
  assert (match contact_ids with
          | None => gets select_pending_contact_ids
          | Some l => mret l
          end w = Ok (resolve_contact_ids contact_ids w) w) as ->
    by (by destruct contact_ids).
  subst chunks. destruct (resolve_contact_ids contact_ids w) as [|x l] eqn:Hids.
  - cbn. by rewrite list_fmap_id.
  - rewrite bind_unfold. unfold log, emit.
    exact (for_each_chunks_world E (chunker (x :: l) 20)
             (mkWorld (fs w) (db_contacts w) (db_transcripts w)
                (db_enhanced_transcripts w)
                (trace w ++ [Log (InfoAttempting (length (x :: l)))]))).
Qed.

Lemma loads_chunks_events E chunks : loads (chunks_events E chunks) = [].
Proof.
  induction chunks as [|c cs IH]; [reflexivity|]. cbn [chunks_events].
  destruct (short E c); [reflexivity|].
  unfold loads in *. rewrite omap_app, IH, app_nil_r.
  unfold chunk_events. cbn [omap list_omap]. rewrite omap_app.
  rewrite omap_fmap_None; [reflexivity | by intros []].
Qed.

(** [download_transcripts] never calls the loader and leaves the
    transcripts and enhanced_transcripts relations alone. In the contacts
    relation it keeps every row in place and changes nothing but the
    [transcript_downloaded] field, which it can only set to true. *)
Theorem download_transcripts_flag_only E contact_ids w :
  let r := download_transcripts E contact_ids w in
  loads (new_events w r) = []
  ∧ db_transcripts (final r) = db_transcripts w
  ∧ db_enhanced_transcripts (final r) = db_enhanced_transcripts w
  ∧ Forall2 (λ row row',
               (∀ k, k ≠ "transcript_downloaded" → get k row' = get k row)
               ∧ (get "transcript_downloaded" row'
                  = get "transcript_downloaded" row
                  ∨ get "transcript_downloaded" row' = Some (SBool true)))
            (db_contacts w) (db_contacts (final r)).
Proof.
  intros r. subst r.
  destruct (download_transcripts_world E contact_ids w) as (Hc & Ht & He).
  cbn zeta in *. split; [|split; [done|split; [done|]]].
  - rewrite (new_events_app w _ _ (download_transcripts_trace E contact_ids w)).
    cbn zeta. destruct (resolve_contact_ids contact_ids w); [reflexivity|].
    cbn [loads omap list_omap]. apply loads_chunks_events.
  - rewrite Hc. apply Forall2_fmap_r, Forall_Forall2_diag, Forall_forall.
    intros row _. split.
    + intros k Hk. by apply mark_all_other.
    + rewrite mark_all_flag. destruct (existsb _ _); [by right | by left].
Qed.

(** *** Which contacts [download_transcripts] asks for, and what is left *)

Lemma elem_of_concat_chunks (x : Z) (chunks : list (list Z)) :
  x ∈ concat chunks ↔ ∃ c, c ∈ chunks ∧ x ∈ c.
Proof.
  rewrite list_elem_of_In, in_concat. split; intros (c & Hc & Hx); exists c.
  - by rewrite !list_elem_of_In.
  - by rewrite <- !list_elem_of_In.
Qed.

Lemma recordings_calls_chunks_events E chunks c :
  c ∈ recordings_calls (chunks_events E chunks) → c ∈ chunks.
Proof.
  induction chunks as [|d ds IH]; cbn [chunks_events].
  - by intros ?%elem_of_nil.
  - destruct (short E d).
    + cbn. intros ->%list_elem_of_singleton. by left.
    + unfold recordings_calls in *. rewrite omap_app.
      fold (recordings_calls (chunk_events E d)).
      rewrite recordings_calls_chunk. cbn [app].
      intros [->|?]%elem_of_cons; [by left | right; by apply IH].
Qed.

Lemma is_pending_spec (r : row) :
  is_pending r = true
  ↔ get "transcript_downloaded" r = Some (SBool false)
    ∧ ∃ v, get "agent_id" r = Some v ∧ v ≠ SNone.
Proof.
  unfold is_pending.
  destruct (get "transcript_downloaded" r) as [[| [] | | |]|];
    destruct (get "agent_id" r) as [[]|];
    split; try done; try (intros [? (v & ? & ?)]; congruence);
    intros _; (split; [done|]); eexists; (split; [done|]); done.
Qed.

Lemma elem_of_select_pending x w :
  x ∈ select_pending_contact_ids w
  ↔ ∃ r, r ∈ db_contacts w ∧ is_pending r = true ∧ row_contact_id r = Some x.
Proof.
  unfold select_pending_contact_ids. rewrite list_elem_of_omap.
  split; intros (r & Hr & Hx); exists r.
  - apply list_elem_of_filter in Hr as [? ?]. done.
  - destruct Hx as [? ?]. split; [|done]. by apply list_elem_of_filter.
Qed.

(** Without an explicit list, every identifier [download_transcripts]
    sends to the service is the identifier of a contact row whose
    [transcript_downloaded] is false and whose [agent_id] is not null: a
    contact already marked, or without an agent, is never requested. *)
Theorem download_transcripts_requests_pending E w :
  let r := download_transcripts E None w in
  ∀ ids x,
    ids ∈ recordings_calls (new_events w r) → x ∈ ids →
    ∃ row, row ∈ db_contacts w
           ∧ row_contact_id row = Some x
           ∧ get "transcript_downloaded" row = Some (SBool false)
           ∧ ∃ v, get "agent_id" row = Some v ∧ v ≠ SNone.
Proof.
  intros r ids x Hids Hx. subst r.
  rewrite (new_events_app w _ _ (download_transcripts_trace E None w)) in Hids.
  cbn zeta in Hids. cbn [resolve_contact_ids] in Hids.
  assert (Hin : x ∈ select_pending_contact_ids w).
  { destruct (select_pending_contact_ids w) as [|y l] eqn:Hsel.
    - cbn in Hids. by apply elem_of_nil in Hids.
    - cbn [recordings_calls omap list_omap] in Hids.
      apply recordings_calls_chunks_events in Hids.
      rewrite <- (chunker_go_concat (length (y :: l)) (y :: l) 20) by lia.
      apply elem_of_concat_chunks. by exists ids. }
  apply elem_of_select_pending in Hin as (row & Hrow & Hp & Hc).
  apply is_pending_spec in Hp as [Hf Ha]. by exists row.
Qed.

(** Of three contacts, only the pending one with an agent is requested. *)
Lemma download_transcripts_requests_pending_witness :
  recordings_calls
    (new_events three_contacts_world
       (download_transcripts echo_env None three_contacts_world)) = [[1]]
  ∧ ∃ row, row ∈ db_contacts three_contacts_world
           ∧ row_contact_id row = Some 1
           ∧ get "transcript_downloaded" row = Some (SBool false).
Proof.
  split; [vm_compute; reflexivity|].
  destruct (download_transcripts_requests_pending echo_env three_contacts_world
              [1] 1) as (row & H1 & H2 & H3 & _).
  - vm_compute. by left.
  - by left.
  - by exists row.
Defined.




(** *** Loading a batch: all of it or none of it *)

Lemma project_inr {V} (columns : list string) (d : dict V) vs :
  project columns d = inr vs →
  length vs = length columns ∧ ∀ k, k ∈ columns → is_Some (get k d).
Proof.
  revert vs. induction columns as [|k ks IH]; intros vs Hp.
  - injection Hp as <-. split; [done|]. by intros k ?%elem_of_nil.
  - cbn [project] in Hp. destruct (get k d) as [v|] eqn:Hk; [|done].
    destruct (project ks d) as [|vs'] eqn:Hps; [done|].
    injection Hp as <-. destruct (IH vs' eq_refl) as [Hl Hin].
    split; [cbn; by rewrite Hl|].
    intros k' [->|?]%elem_of_cons; [by rewrite Hk | by apply Hin].
Qed.

Lemma project_inl {V} (columns : list string) (d : dict V) k :
  project columns d = inl k → k ∈ columns ∧ get k d = None.
Proof.
  induction columns as [|k0 ks IH]; [done|]. cbn [project].
  destruct (get k0 d) as [v|] eqn:Hk.
  - destruct (project ks d) as [k'|vs'] eqn:Hps; [|done].
    intros [= ->]. destruct (IH eq_refl). split; [by right | done].
  - intros [= ->]. split; [by left | done].
Qed.

Lemma project_rows_inr (columns : list string) (rows : list row) data :
  project_rows columns rows = inr data →
  Forall2 (λ r vs, project columns r = inr vs) rows data.
Proof.
  revert data. induction rows as [|r rows IH]; intros data Hp.
  - injection Hp as <-. constructor.
  - cbn [project_rows] in Hp.
    destruct (project columns r) as [|vs] eqn:Hr; [done|].
    destruct (project_rows columns rows) as [|vss]; [done|].
    injection Hp as <-. constructor; [done | by apply IH].
Qed.

Lemma project_rows_inl (columns : list string) (rows : list row) k :
  project_rows columns rows = inl k →
  ∃ r, r ∈ rows ∧ k ∈ columns ∧ get k r = None.
Proof.
  induction rows as [|r rows IH]; [done|]. cbn [project_rows].
  destruct (project columns r) as [k'|vs] eqn:Hr.
  - intros [= ->]. apply project_inl in Hr as [? ?].
    exists r. split; [by left | done].
  - destruct (project_rows columns rows) as [k'|vss]; [|done].
    intros [= ->]. destruct (IH eq_refl) as (r' & ? & ? & ?).
    exists r'. split; [by right | done].
Qed.

(** The columns of a contacts load are the keys of the first record.
    Either every record of the artifact has all of them, and the whole
    batch goes to the loader in one call, one row per record, each as long
    as the column list (keys a later record has in addition are left out);
    or some record lacks one of them, and the operation raises [KeyError]
    before the loader is called, so that nothing of the artifact is
    persisted. *)
Theorem parse_contacts_file_all_or_nothing E filename contact contacts w :
  fs w !! filename = Some (ContactsFile (contact :: contacts)) →
  let base_file := PyStr.basename filename in
  let interaction_type := PyStr.split_first "_" base_file in
  let parsed := parsed_contacts E interaction_type base_file (contact :: contacts) in
  let columns := keys (layer_metadata interaction_type base_file
                         (contacts_transforms E contact)) in
  let r := parse_contacts_file E filename w in
  (∃ data,
     r = Ok tt (final r)
     ∧ loads (new_events w r) = [("contacts", columns, data)]
     ∧ length data = S (length contacts)
     ∧ Forall (λ vs, length vs = length columns) data
     ∧ db_contacts (final r) = db_contacts w ++ (make_row columns <$> data))
  ∨ (∃ k record,
       r = Raise (KeyError k) (final r)
       ∧ k ∈ columns ∧ record ∈ parsed ∧ get k record = None
       ∧ loads (new_events w r) = []
       ∧ db_contacts (final r) = db_contacts w).
Proof.
  intros Hf base_file interaction_type parsed columns r. subst r.
  rewrite (parse_contacts_file_run E filename contact contacts w Hf).
  fold base_file interaction_type parsed columns. unfold load_rows.
  destruct (project_rows columns parsed) as [k|data] eqn:Hp.
  - right. apply project_rows_inl in Hp as (record & Hin & Hk & Hg).
    exists k, record. split; [reflexivity|]. repeat (split; [done|]).
    split; [|reflexivity].
    unfold new_events, raise. world_simpl. by rewrite drop_app_length.
  - left. exists data. rewrite postgrez_load_contacts.
    split; [reflexivity|]. split; [|split; [|split]].
    + by erewrite new_events_after by (world_simpl; reflexivity).
    + apply project_rows_inr, Forall2_length in Hp. rewrite <- Hp.
      subst parsed. unfold parsed_contacts. by rewrite length_fmap.
    + apply project_rows_inr in Hp. clear -Hp.
      induction Hp as [|rw vs rows data Hv _ IH]; constructor; [|done].
      by apply project_inr in Hv as [? _].
    + reflexivity.
Qed.

(** The second contact lacks the agent the first one has: nothing is
    loaded. *)
Lemma parse_contacts_file_all_or_nothing_witness :
  let r := parse_contacts_file ragged_env "/out/IM_2019-01-30_contacts.txt"
             contacts_file_world in
  r = Raise (KeyError "agent_id") (final r) ∧ db_contacts (final r) = [].
Proof.
  destruct (parse_contacts_file_all_or_nothing ragged_env
              "/out/IM_2019-01-30_contacts.txt" (JInt 1) [JInt 2]
              contacts_file_world eq_refl)
    as [(data & H & _)|(k & record & H & _ & _ & _ & _ & Hdb)].
  - exfalso. vm_compute in H. discriminate.
  - split; [|exact Hdb]. vm_compute. reflexivity.
Defined.

(** *** An artifact without records is never marked as loaded *)

(** A contacts artifact that holds no record is parsed without a load, so
    its name is not persisted: the reconciler returns after the parse what
    it returned before, the artifact among it if it was. *)
Theorem empty_contacts_file_stays_pending E filename w :
  fs w !! filename = Some (ContactsFile []) →
  let w' := final (parse_contacts_file E filename w) in
  fs w' = fs w ∧ db_contacts w' = db_contacts w
  ∧ ∀ to_load, get_contacts_to_load E w = Ok to_load w →
               get_contacts_to_load E w' = Ok to_load w'.
Proof.
  intros Hf w'.
  assert (Hw : fs w' = fs w ∧ db_contacts w' = db_contacts w).
  { subst w'. unfold parse_contacts_file, read_jason. monad_unfold. world_simpl.
    by rewrite Hf. }
  destruct Hw as [Hfs Hdb]. split; [done|]. split; [done|].
  intros to_load Hl. rewrite get_contacts_to_load_run in *.
  injection Hl as <-.
  unfold matching_names, search_path, select_load_files. by rewrite Hfs, Hdb.
Qed.

Lemma empty_contacts_file_stays_pending_witness :
  let w' := final (parse_contacts_file echo_env "/out/IM_2019-01-30_contacts.txt"
                     empty_file_world) in
  get_contacts_to_load echo_env w' = Ok ["IM_2019-01-30_contacts.txt"] w'.
Proof.
  destruct (empty_contacts_file_stays_pending echo_env
              "/out/IM_2019-01-30_contacts.txt" empty_file_world eq_refl)
    as (_ & _ & H).
  apply H. vm_compute. reflexivity.
Defined.

(** *** From the contacts load to the transcripts download *)

Lemma Forall2_elem_of_l {A B} (P : A → B → Prop) (l : list A) (k : list B) x :
  Forall2 P l k → x ∈ l → ∃ y, y ∈ k ∧ P x y.
Proof.
  induction 1 as [|a b l k Hab _ IH]; [by intros ?%elem_of_nil|].
  intros [->|Hx]%elem_of_cons.
  - exists b. split; [by left | done].
  - destruct (IH Hx) as (y & ? & ?). exists y. split; [by right | done].
Qed.

(** A contact that has just been loaded is pending for the transcript
    download: when the first record's transform output has the columns
    [contact_id] and [agent_id], every record of the artifact with an
    integer [contact_id] and a non-null [agent_id] is returned by the query
    [download_transcripts] starts from. *)
Theorem parse_contacts_file_feeds_download E filename contact contacts w w' :
  fs w !! filename = Some (ContactsFile (contact :: contacts)) →
  parse_contacts_file E filename w = Ok tt w' →
  "contact_id" ∈ keys (contacts_transforms E contact) →
  "agent_id" ∈ keys (contacts_transforms E contact) →
  ∀ c n v,
    c ∈ contact :: contacts →
    get "contact_id" (contacts_transforms E c) = Some (SInt n) →
    get "agent_id" (contacts_transforms E c) = Some v → v ≠ SNone →
    n ∈ select_pending_contact_ids w'.
Proof.
  intros Hf Hrun Hcid Hagent c n v Hc Hn Hv Hvn.
  rewrite (parse_contacts_file_run E filename contact contacts w Hf) in Hrun.
  unfold load_rows in Hrun.
  set (base := PyStr.basename filename) in *.
  set (it := PyStr.split_first "_" base) in *.
  set (first := layer_metadata it base (contacts_transforms E contact)) in *.
  destruct (project_rows (keys first) _) as [|data] eqn:Hp; [done|].
  rewrite postgrez_load_contacts in Hrun. injection Hrun as <-.
  apply project_rows_inr in Hp.
  destruct (Forall2_elem_of_l _ _ _
              (layer_metadata it base (contacts_transforms E c)) Hp)
    as (vs & Hvs & Hproj).
  { unfold parsed_contacts.
    by apply (list_elem_of_fmap_2
                (λ contact, layer_metadata it base (contacts_transforms E contact))). }
  assert (Hcols : ∀ k, k ∈ keys (contacts_transforms E contact) ∨ k ∈ metadata_fields
                       → k ∈ keys first)
    by (intros k Hk; by apply layer_metadata_spec).
  assert (Hget : ∀ k, k ∈ keys first →
            get k (make_row (keys first) vs)
            = get k (layer_metadata it base (contacts_transforms E c)))
    by (intros k Hk; by apply get_zip_project).
  destruct (layer_metadata_spec it base (contacts_transforms E c))
    as (_ & Hflag & _ & Hother & _).
  apply elem_of_select_pending. exists (make_row (keys first) vs).
  split; [|split].
  - world_simpl. apply elem_of_app. right. by apply list_elem_of_fmap_2.
  - apply is_pending_spec. split.
    + rewrite Hget by (apply Hcols; right; unfold metadata_fields;
                       apply elem_of_cons; right; by left).
      exact Hflag.
    + exists v. split; [|done].
      rewrite Hget by (apply Hcols; by left).
      rewrite Hother; [done|]. unfold metadata_fields.
      rewrite !not_elem_of_cons. repeat split; try done. apply not_elem_of_nil.
  - unfold row_contact_id.
    rewrite Hget by (apply Hcols; by left).
    rewrite Hother; [by rewrite Hn|]. unfold metadata_fields.
    rewrite !not_elem_of_cons. repeat split; try done. apply not_elem_of_nil.
Qed.

(** The two contacts of 2019-01-30 are pending once loaded. *)
Lemma parse_contacts_file_feeds_download_witness :
  2 ∈ select_pending_contact_ids
        (final (parse_contacts_file echo_env "/out/IM_2019-01-30_contacts.txt"
                  contacts_file_world)).
Proof.
  apply (parse_contacts_file_feeds_download echo_env
           "/out/IM_2019-01-30_contacts.txt" (JInt 1) [JInt 2]
           contacts_file_world _ eq_refl) with (c := JInt 2) (v := SInt 7).
  - vm_compute. reflexivity.
  - vm_compute. by left.
  - vm_compute. right. by left.
  - right. by left.
  - reflexivity.
  - reflexivity.
  - done.
Defined.

(** *** The enhancement stage *)









(** *** [replace_nans], again *)

Lemma denan_idem v : denan (denan v) = denan v.
Proof. unfold denan. by destruct v as [| | |[]|]. Qed.

(** Cleaning a summary twice is cleaning it once. *)
Theorem replace_nans_idempotent (summary : row) :
  wf summary →
  wf (replace_nans summary)
  ∧ replace_nans (replace_nans summary) = replace_nans summary.
Proof.
  intros Hwf. split; [by apply wf_replace_nans|].
  rewrite (replace_nans_map (replace_nans summary))
    by by apply wf_replace_nans.
  rewrite (replace_nans_map summary) by done.
  rewrite <- list_fmap_compose. apply list_fmap_ext.
  intros _ [k v] _. cbn. by rewrite denan_idem.
Qed.

Lemma replace_nans_idempotent_witness :
  replace_nans (replace_nans [("n", SInt 1); ("avg", SFloat S754_nan)])
  = [("n", SInt 1); ("avg", SNone)].
Proof.
  destruct (replace_nans_idempotent [("n", SInt 1); ("avg", SFloat S754_nan)])
    as [_ H].
  - unfold wf. apply NoDup_ListNoDup. vm_compute.
    repeat (constructor; [intros Hin; vm_compute in Hin; intuition congruence|]).
    constructor.
  - rewrite H. reflexivity.
Defined.

(* ===================================================================== *)
(** ** The file name of a transcript, written and read back *)
(* ===================================================================== *)

(** *** The matcher finds every match *)

Lemma string_app_cons c (a b : string) : String c a +:+ b = String c (a +:+ b).
Proof. reflexivity. Qed.

Lemma matches_nullable r : matches r "" → Regex.nullable r = true.
Proof.
  intros H. remember "" as s eqn:Hs.
  induction H as [| | | | |r1 r2 s1 s2 _ IH1 _ IH2| | | |]; try done; cbn.
  - destruct s1; [|done]. cbn in Hs. by rewrite IH1, IH2.
  - by rewrite IHmatches.
  - rewrite IHmatches by done. apply orb_true_r.
Qed.

Lemma matches_deriv r c s :
  matches r (String c s) → matches (Regex.deriv c r) s.
Proof.
  intros H. remember (String c s) as cs eqn:Hcs. revert c s Hcs.
  induction H as [|a|a Ha|a Ha|a Ha|r1 r2 s1 s2 H1 IH1 H2 IH2
                 |r1 r2 s0 H0 IH0|r1 r2 s0 H0 IH0|r0|r0 s1 s2 H1 IH1 H2 IH2];
    intros c s Hcs; cbn [Regex.deriv].
  - done.
  - injection Hcs as -> <-. rewrite Ascii.eqb_refl. constructor.
  - injection Hcs as -> <-. rewrite Ha. constructor.
  - injection Hcs as -> <-. rewrite Ha. constructor.
  - injection Hcs as -> <-. rewrite Ha. constructor.
  - destruct s1 as [|c1 s1'].
    + rewrite (matches_nullable r1 H1). apply MAltR. by apply IH2.
    + rewrite string_app_cons in Hcs. injection Hcs as -> <-.
      assert (matches (Regex.Seq (Regex.deriv c r1) r2) (s1' +:+ s2))
        by (constructor; [by apply IH1 | done]).
      destruct (Regex.nullable r1); [by apply MAltL | done].
  - apply MAltL. by apply IH0.
  - apply MAltR. by apply IH0.
  - done.
  - destruct s1 as [|c1 s1'].
    + by apply IH2.
    + rewrite string_app_cons in Hcs. injection Hcs as -> <-.
      constructor; [by apply IH1 | done].
Qed.

(** [re.match] succeeds on every string that starts with a match. *)
Lemma re_match_complete r (s1 s2 : string) :
  matches r s1 → Regex.re_match r (s1 +:+ s2) = true.
Proof.
  revert r. induction s1 as [|c s1 IH]; intros r H.
  - change ("" +:+ s2) with s2.
    destruct s2; cbn [Regex.re_match]; by rewrite (matches_nullable r H).
  - rewrite string_app_cons. cbn [Regex.re_match].
    rewrite (IH _ (matches_deriv r c s1 H)). apply orb_true_r.
Qed.

(** *** ... and nothing in an empty language *)

Lemma is_void_not_nullable r : is_void r = true → Regex.nullable r = false.
Proof.
  induction r; cbn; try done.
  - intros [H|H]%orb_true_iff; [rewrite IHr1 by done; done|].
    rewrite IHr2 by done. apply andb_false_r.
  - intros [H1 H2]%andb_true_iff. by rewrite IHr1, IHr2.
Qed.

Lemma is_void_deriv c r : is_void r = true → is_void (Regex.deriv c r) = true.
Proof.
  induction r; cbn; try done.
  - intros [H|H]%orb_true_iff.
    + rewrite (is_void_not_nullable r1 H). cbn. by rewrite IHr1.
    + destruct (Regex.nullable r1); cbn; rewrite ?IHr2 by done;
        rewrite H; rewrite ?orb_true_r; done.
  - intros [H1 H2]%andb_true_iff. by rewrite IHr1, IHr2.
Qed.

Lemma re_match_void r s : is_void r = true → Regex.re_match r s = false.
Proof.
  revert r. induction s as [|c s IH]; intros r H; cbn [Regex.re_match].
  - by rewrite is_void_not_nullable.
  - rewrite is_void_not_nullable by done. cbn. apply IH. by apply is_void_deriv.
Qed.

Lemma matches_lit s : matches (Regex.lit s) s.
Proof.
  induction s as [|c s IH]; cbn [Regex.lit]; [constructor|].
  change (String c s) with (String c "" +:+ s). constructor; [constructor | done].
Qed.

Lemma matches_star_digits s :
  all_digits s = true → matches (Regex.Star Regex.Digit) s.
Proof.
  induction s as [|c s IH]; cbn; [constructor|].
  intros [Hc Hs]%andb_true_iff.
  change (String c s) with (String c "" +:+ s).
  constructor; [by constructor | by apply IH].
Qed.

(** A string of digits followed by [_data.txt] matches the transcripts
    pattern. *)
Lemma re_match_transcripts_reg (digits rest : string) :
  all_digits digits = true →
  Regex.re_match Regex.transcripts_reg (digits +:+ "_data.txt" +:+ rest) = true.
Proof.
  intros Hd. rewrite <- string_app_assoc. apply re_match_complete.
  unfold Regex.transcripts_reg. constructor; [by apply matches_star_digits|].
  change "_data.txt" with ("_data" +:+ (String "." "" +:+ "txt")).
  constructor; [apply matches_lit|].
  constructor; [by constructor | apply matches_lit].
Qed.

(** A name that starts with a minus sign does not. *)
Lemma re_match_transcripts_reg_minus (s : string) :
  Regex.re_match Regex.transcripts_reg (String "-" s) = false.
Proof.
  cbn [Regex.re_match]. replace (Regex.nullable Regex.transcripts_reg) with false
    by reflexivity.
  cbn [orb]. apply re_match_void. reflexivity.
Qed.

(** *** Decimal digits *)

Lemma is_digit_pretty_char n : Regex.is_digit (pretty_N_char n) = true.
Proof. unfold pretty_N_char. by repeat case_match. Qed.

Lemma is_nat_pretty_char n :
  (n < 10)%N → Ascii.is_nat (pretty_N_char n) = Some (N.to_nat n).
Proof.
  intros Hn.
  assert (n = 0 ∨ n = 1 ∨ n = 2 ∨ n = 3 ∨ n = 4 ∨ n = 5 ∨ n = 6 ∨ n = 7
          ∨ n = 8 ∨ n = 9)%N as H by lia.
  repeat (destruct H as [->|H]; [reflexivity|]). by subst.
Qed.

Lemma pretty_N_go_digits x s :
  all_digits s = true → all_digits (pretty_N_go x s) = true.
Proof.
  revert s. induction (N.lt_wf_0 x) as [x _ IH]; intros s Hs.
  destruct (decide (x = 0)%N) as [->|Hx]; [by rewrite pretty_N_go_0|].
  rewrite pretty_N_go_step by lia. apply IH.
  - apply N.div_lt; lia.
  - cbn [all_digits]. by rewrite is_digit_pretty_char, Hs.
Qed.

(** Reading back the digits [pretty] writes. *)
Lemma digits_val_pretty_go x :
  (0 < x)%N →
  ∃ m, ∀ acc b s,
    PyStr.digits_val acc b (pretty_N_go x s)
    = PyStr.digits_val (acc * m + Z.of_N x) true s.
Proof.
  induction (N.lt_wf_0 x) as [x _ IH]; intros Hx.
  assert (Hdm : Z.of_N x = 10 * Z.of_N (x / 10) + Z.of_N (x mod 10)).
  { pose proof (N.div_mod x 10). lia. }
  assert (Hlt : (x mod 10 < 10)%N) by (apply N.mod_lt; lia).
  destruct (decide (x / 10 = 0)%N) as [H0|H0].
  - exists 10. intros acc b s.
    rewrite pretty_N_go_step, H0, pretty_N_go_0 by done.
    cbn [PyStr.digits_val]. rewrite is_nat_pretty_char by done.
    f_equal. rewrite H0 in Hdm. lia.
  - destruct (IH (x / 10)%N) as [m' Hm']; [apply N.div_lt; lia | lia |].
    exists (10 * m'). intros acc b s.
    rewrite pretty_N_go_step, Hm' by done.
    cbn [PyStr.digits_val]. rewrite is_nat_pretty_char by done.
    f_equal. rewrite Hdm, N_nat_Z. ring.
Qed.

(** [str] of a non-negative integer: a non-empty string of digits that
    reads back as the integer. *)
Lemma pretty_nonneg (n : Z) :
  0 ≤ n →
  all_digits (pretty n) = true
  ∧ PyStr.digits_val 0 false (pretty n) = Some n.
Proof.
  intros Hn. destruct n as [|p|p]; [by split | | lia].
  assert (pretty (Z.pos p) = pretty_N_go (N.pos p) "") as ->.
  { unfold pretty at 1, pretty_Z, pretty, pretty_positive, pretty, pretty_N.
    by rewrite decide_False by done. }
  split; [by apply pretty_N_go_digits|].
  destruct (digits_val_pretty_go (N.pos p)) as [m Hm]; [lia|].
  rewrite Hm. cbn [PyStr.digits_val]. f_equal.
Qed.

Lemma digit_facts c :
  Regex.is_digit c = true →
  Ascii.is_space c = false ∧ c ≠ "_"%char ∧ c ≠ "/"%char
  ∧ c ≠ "-"%char ∧ c ≠ "+"%char.
Proof.
  destruct c as [[] [] [] [] [] [] [] []]; cbn; intros H; try discriminate;
    repeat split; discriminate.
Qed.

(** *** Reversal and stripping *)

Lemma rev_app_rev_app (s t u : string) :
  String.rev_app (String.rev_app s t) u = String.rev_app t (s +:+ u).
Proof.
  revert t u. induction s as [|a s IH]; intros t u; [reflexivity|].
  cbn [String.rev_app]. rewrite IH. reflexivity.
Qed.

Lemma string_rev_involutive (s : string) : String.rev (String.rev s) = s.
Proof.
  unfold String.rev. rewrite rev_app_rev_app. cbn [String.rev_app].
  apply string_app_nil_r.
Qed.

Lemma all_digits_rev_app (s t : string) :
  all_digits s = true → all_digits t = true →
  all_digits (String.rev_app s t) = true.
Proof.
  revert t. induction s as [|a s IH]; intros t Hs Ht; [done|].
  cbn in Hs. apply andb_true_iff in Hs as [Ha Hs].
  cbn [String.rev_app]. apply IH; [done|]. cbn. by rewrite Ha, Ht.
Qed.

Lemma lstrip_digits (s : string) : all_digits s = true → PyStr.lstrip s = s.
Proof.
  destruct s as [|c s]; [done|]. cbn. intros [Hc _]%andb_true_iff.
  by destruct (digit_facts c Hc) as [-> _].
Qed.

Lemma strip_digits (s : string) : all_digits s = true → PyStr.strip s = s.
Proof.
  intros Hs. unfold PyStr.strip. rewrite (lstrip_digits s Hs).
  rewrite lstrip_digits by (by apply all_digits_rev_app).
  apply string_rev_involutive.
Qed.

(** [int] of a string of digits reads the digits. *)
Lemma py_int_digits (s : string) :
  all_digits s = true → PyStr.py_int s = PyStr.digits_val 0 false s.
Proof.
  intros Hs. unfold PyStr.py_int. rewrite strip_digits by done.
  destruct s as [|c s]; [reflexivity|].
  cbn in Hs. apply andb_true_iff in Hs as [Hc _].
  destruct c as [[] [] [] [] [] [] [] []]; try discriminate; reflexivity.
Qed.

Lemma split_first_digits (digits rest : string) :
  all_digits digits = true →
  PyStr.split_first "_data.txt" (digits +:+ "_data.txt" +:+ rest) = digits.
Proof.
  induction digits as [|c ds IH]; [intros _; by destruct rest|].
  cbn [all_digits]. intros [Hc Hds]%andb_true_iff.
  rewrite string_app_cons. cbn [PyStr.split_first String.prefix].
  destruct (digit_facts c Hc) as (_ & Hu & _).
  destruct (ascii_dec "_" c) as [<-|_]; [done|]. by rewrite IH.
Qed.

Lemma all_digits_no_slash (s : string) :
  all_digits s = true → PyStr.occurs "/" s = false.
Proof.
  induction s as [|c s IH]; [done|]. cbn.
  intros [Hc Hs]%andb_true_iff. rewrite IH by done.
  destruct (digit_facts c Hc) as (_ & _ & Hsl & _).
  by apply Ascii.eqb_neq in Hsl as ->.
Qed.

(** *** Paths *)

Lemma basename_go_after_slash (a acc f : string) :
  PyStr.occurs "/" f = false →
  PyStr.basename_go acc (a +:+ String "/" f) = f.
Proof.
  intros Hf. revert acc. induction a as [|c a IH]; intros acc.
  - change ("" +:+ String "/" f) with (String "/" f).
    cbn [PyStr.basename_go]. rewrite Ascii.eqb_refl.
    by rewrite basename_go_id.
  - rewrite string_app_cons. cbn [PyStr.basename_go].
    destruct (Ascii.eqb c "/"); apply IH.
Qed.

Lemma ends_with_slash (d : string) :
  String.substring (String.length d - 1) 1 d = "/" → ∃ d', d = d' +:+ "/".
Proof.
  induction d as [|c d IH]; [done|].
  destruct d as [|c1 d1].
  - cbn. intros [= ->]. by exists "".
  - replace (String.length (String c (String c1 d1)) - 1)%nat
      with (S (String.length (String c1 d1) - 1)) by (cbn; lia).
    cbn [String.substring]. intros H. destruct (IH H) as [d' ->].
    by exists (String c d').
Qed.

(** The name of a file directly in a directory is the last part of its
    path. *)
Lemma basename_path_join (d f : string) :
  PyStr.occurs "/" f = false → PyStr.basename (PyStr.path_join d f) = f.
Proof.
  intros Hf. unfold PyStr.path_join, PyStr.basename.
  destruct (String.eqb d "") eqn:Hd.
  - by rewrite basename_go_id.
  - destruct (String.eqb _ "/") eqn:Hs.
    + apply String.eqb_eq, ends_with_slash in Hs as [d' ->].
      rewrite string_app_assoc. by apply basename_go_after_slash.
    + by apply basename_go_after_slash.
Qed.

Lemma in_directory_path_join (d f : string) :
  PyStr.occurs "/" f = false → in_directory d (PyStr.path_join d f) = true.
Proof.
  intros Hf. unfold in_directory. rewrite basename_path_join by done.
  apply String.eqb_refl.
Qed.

Lemma path_join_inj (d f1 f2 : string) :
  PyStr.path_join d f1 = PyStr.path_join d f2 → f1 = f2.
Proof.
  unfold PyStr.path_join. destruct (String.eqb d ""); [done|].
  destruct (String.eqb _ "/"); intros H.
  - by apply (inj (String.app d)) in H.
  - apply (inj (String.app d)) in H. by apply (inj (String.app "/")) in H.
Qed.

Lemma string_length_app (a b : string) :
  String.length (a +:+ b) = (String.length a + String.length b)%nat.
Proof.
  induction a as [|c a IH]; [reflexivity|].
  rewrite string_app_cons. cbn. by rewrite IH.
Qed.

Lemma string_app_inj_r (a b c : string) : a +:+ c = b +:+ c → a = b.
Proof.
  revert b. induction a as [|x a IH]; intros [|y b] H.
  - reflexivity.
  - change ("" +:+ c) with c in H. apply (f_equal String.length) in H.
    rewrite string_app_cons in H. cbn [String.length] in H.
    rewrite string_length_app in H. lia.
  - change ("" +:+ c) with c in H. apply (f_equal String.length) in H.
    rewrite string_app_cons in H. cbn [String.length] in H.
    rewrite string_length_app in H. lia.
  - rewrite !string_app_cons in H. injection H as -> H. f_equal. by apply IH.
Qed.

Lemma transcript_filename_inj (n m : Z) :
  transcript_filename n = transcript_filename m → n = m.
Proof.
  unfold transcript_filename, PyStr.str_of_int. intros H.
  apply string_app_inj_r in H. by apply (inj pretty) in H.
Qed.

Lemma transcript_path_inj E (n m : Z) :
  transcript_path E n = transcript_path E m → n = m.
Proof.
  unfold transcript_path. intros H.
  by apply path_join_inj, transcript_filename_inj in H.
Qed.

Lemma transcript_filename_no_slash (n : Z) :
  PyStr.occurs "/" (transcript_filename n) = false.
Proof.
  unfold transcript_filename, PyStr.str_of_int. rewrite occurs_app.
  replace (PyStr.occurs "/" "_data.txt") with false by reflexivity.
  rewrite orb_false_r. destruct n as [|p|p].
  - reflexivity.
  - apply all_digits_no_slash. by apply pretty_nonneg.
  - change (pretty (Z.neg p)) with ("-" +:+ pretty (Z.pos p)).
    rewrite occurs_app. replace (PyStr.occurs "/" "-") with false by reflexivity.
    apply all_digits_no_slash. by apply pretty_nonneg.
Qed.

Lemma elem_of_search_path (d p : string) (like : list Regex.regex) w :
  p ∈ search_path d like w
  ↔ is_Some (fs w !! p)
    ∧ in_directory d p = true
    ∧ existsb (λ r, Regex.re_match r (PyStr.basename p)) like = true.
Proof.
  unfold search_path. rewrite list_elem_of_filter, list_elem_of_fmap.
  split.
  - intros [[Hd Hm] ([p' a] & -> & Hin)].
    apply elem_of_map_to_list in Hin. cbn in *. by eauto.
  - intros ([a Ha] & Hd & Hm). split; [done|].
    exists (p, a). split; [done|]. by apply elem_of_map_to_list.
Qed.

Lemma basename_transcript_path E (n : Z) :
  PyStr.basename (transcript_path E n) = transcript_filename n.
Proof.
  unfold transcript_path.
  apply basename_path_join, transcript_filename_no_slash.
Qed.

Lemma transcript_filename_matches (n : Z) :
  0 ≤ n → Regex.re_match Regex.transcripts_reg (transcript_filename n) = true.
Proof.
  intros Hn. destruct (pretty_nonneg n Hn) as [Hd _].
  change (transcript_filename n) with (pretty n +:+ "_data.txt" +:+ "").
  by apply re_match_transcripts_reg.
Qed.

Lemma transcript_filename_parses (n : Z) :
  0 ≤ n → contact_id_of_filename (transcript_filename n) = Some n.
Proof.
  intros Hn. destruct (pretty_nonneg n Hn) as [Hd Hv].
  unfold contact_id_of_filename.
  change (transcript_filename n) with (pretty n +:+ "_data.txt" +:+ "").
  rewrite split_first_digits by done. by rewrite py_int_digits.
Qed.

Lemma transcript_path_listed E (n : Z) w :
  0 ≤ n → is_Some (fs w !! transcript_path E n) →
  transcript_path E n
  ∈ search_path (ICESCAPE_OUTPUT_DIR E) [Regex.transcripts_reg] w.
Proof.
  intros Hn Hw. apply elem_of_search_path. split; [done|]. split.
  - unfold transcript_path.
    apply in_directory_path_join, transcript_filename_no_slash.
  - cbn [existsb].
    by rewrite basename_transcript_path, transcript_filename_matches.
Qed.

(** The artifact [download_transcripts] writes for an identifier is named
    [{id}_data.txt] in the output directory. For a non-negative identifier
    the transcripts reconciler finds that file and parses its name back to
    the identifier; the artifact of a negative identifier does not match
    the pattern and is never listed. *)
Theorem transcript_artifact_round_trip E (n : Z) :
  let p := transcript_path E n in
  PyStr.basename p = PyStr.str_of_int n +:+ "_data.txt"
  ∧ (0 ≤ n →
     contact_id_of_filename (PyStr.basename p) = Some n
     ∧ Regex.re_match Regex.transcripts_reg (PyStr.basename p) = true
     ∧ ∀ w, is_Some (fs w !! p) →
            p ∈ search_path (ICESCAPE_OUTPUT_DIR E) [Regex.transcripts_reg] w)
  ∧ (n < 0 →
     ∀ w, p ∉ search_path (ICESCAPE_OUTPUT_DIR E) [Regex.transcripts_reg] w).
Proof.
  intros p. subst p. rewrite basename_transcript_path.
  split; [reflexivity|]. split.
  - intros Hn. split; [by apply transcript_filename_parses|].
    split; [by apply transcript_filename_matches|].
    intros w Hw. by apply transcript_path_listed.
  - intros Hn w Hin. apply elem_of_search_path in Hin as (_ & _ & Hm).
    cbn [existsb] in Hm. rewrite orb_false_r, basename_transcript_path in Hm.
    destruct n as [|q|q]; [lia | lia |].
    change (transcript_filename (Z.neg q))
      with (String "-" (pretty (Z.pos q) +:+ "_data.txt")) in Hm.
    by rewrite re_match_transcripts_reg_minus in Hm.
Qed.

Lemma transcript_artifact_round_trip_witness :
  contact_id_of_filename (PyStr.basename "/out/7_data.txt") = Some 7
  ∧ "/out/7_data.txt"
    ∈ search_path "/out" [Regex.transcripts_reg] one_file_world.
Proof.
  destruct (transcript_artifact_round_trip echo_env 7) as (_ & H & _).
  destruct H as (H1 & _ & H3); [lia|].
  split; [exact H1|]. apply (H3 one_file_world). by eexists.
Defined.

(** *** The artifact store after a chunk *)

Lemma save_transcripts_cons E contact_id t l m :
  save_transcripts E ((contact_id, t) :: l) m
  = save_transcripts E l (<[transcript_path E contact_id := TranscriptFile t]> m).
Proof. reflexivity. Qed.

Lemma save_transcripts_other E (l : list (Z * transcript)) m p :
  (∀ contact_id, contact_id ∈ l.*1 → p ≠ transcript_path E contact_id) →
  save_transcripts E l m !! p = m !! p.
Proof.
  revert m. induction l as [|[cid t] l IH]; intros m Hp; [done|].
  rewrite save_transcripts_cons, IH.
  - apply lookup_insert_ne. intros Heq. by apply (Hp cid); [left|].
  - intros cid' Hin. apply Hp. by right.
Qed.

Lemma save_transcripts_lookup E (l : list (Z * transcript)) m contact_id t :
  NoDup l.*1 → (contact_id, t) ∈ l →
  save_transcripts E l m !! transcript_path E contact_id
  = Some (TranscriptFile t).
Proof.
  revert m. induction l as [|[cid t'] l IH]; intros m Hnd Hin;
    [by apply elem_of_nil in Hin|].
  cbn in Hnd. apply NoDup_cons in Hnd as [Hnot Hnd].
  rewrite save_transcripts_cons.
  apply elem_of_cons in Hin as [[= -> ->]|Hin]; [|by apply IH].
  rewrite save_transcripts_other; [apply lookup_insert_eq|].
  intros cid' Hin' Heq. apply transcript_path_inj in Heq as ->. done.
Qed.

(** After a chunk of distinct identifiers that came back whole, the
    artifact store holds, under the path of each identifier, the
    transcript returned at its position, and every other path is as
    before; every contact row of the chunk is marked as downloaded; and
    the artifact of every non-negative identifier is found by the
    transcripts reconciler's listing, its name parsing back to the
    identifier. *)
Theorem download_chunk_store E chunk w :
  short E chunk = false → NoDup chunk →
  let w' := final (download_chunk E chunk w) in
  (∀ i contact_id t,
     chunk !! i = Some contact_id →
     ice_get_recordings E chunk !! i = Some t →
     fs w' !! transcript_path E contact_id = Some (TranscriptFile t))
  ∧ (∀ p, (∀ contact_id, contact_id ∈ chunk → p ≠ transcript_path E contact_id) →
          fs w' !! p = fs w !! p)
  ∧ (∀ row, row ∈ db_contacts w' → contact_id_in chunk row = true →
            get "transcript_downloaded" row = Some (SBool true))
  ∧ (∀ contact_id,
       contact_id ∈ chunk → 0 ≤ contact_id →
       transcript_path E contact_id
       ∈ search_path (ICESCAPE_OUTPUT_DIR E) [Regex.transcripts_reg] w'
       ∧ contact_id_of_filename (PyStr.basename (transcript_path E contact_id))
         = Some contact_id).
Proof.
  intros Hs Hnd w'. subst w'. rewrite download_chunk_whole by done.
  cbn [final]. unfold chunk_world. world_simpl.
  assert (Hlen : (length chunk ≤ length (ice_get_recordings E chunk))%nat).
  { unfold short in Hs. apply bool_decide_eq_false in Hs. lia. }
  assert (Hfst : (zip chunk (ice_get_recordings E chunk)).*1 = chunk)
    by by apply fst_zip.
  assert (Hstore : ∀ i contact_id t,
            chunk !! i = Some contact_id →
            ice_get_recordings E chunk !! i = Some t →
            save_transcripts E (zip chunk (ice_get_recordings E chunk)) (fs w)
              !! transcript_path E contact_id = Some (TranscriptFile t)).
  { intros i cid t Hi Ht. apply save_transcripts_lookup; [by rewrite Hfst|].
    apply list_elem_of_lookup. exists i.
    apply lookup_zip_with_Some. by exists cid, t. }
  split; [exact Hstore|]. split; [|split].
  - intros p Hp. apply save_transcripts_other. by rewrite Hfst.
  - intros row Hrow Hin. apply list_elem_of_fmap in Hrow as (row0 & -> & _).
    rewrite contact_id_in_mark_row in Hin. by rewrite mark_row_flag, Hin.
  - intros cid Hcid Hpos.
    split; [|by rewrite basename_transcript_path, transcript_filename_parses].
    apply transcript_path_listed; [done|]. world_simpl.
    apply list_elem_of_lookup in Hcid as [i Hi].
    destruct (lookup_lt_is_Some_2 (ice_get_recordings E chunk) i) as [t Ht].
    { apply lookup_lt_Some in Hi. lia. }
    rewrite (Hstore i cid t Hi Ht). by eexists.
Qed.

(** A service that answers in reverse order: the artifact of contact 1
    holds the transcript of contact 2, and both artifacts are listed. *)
Lemma download_chunk_store_witness :
  let w' := final (download_chunk reversing_env [1; 2] empty_world) in
  fs w' !! "/out/1_data.txt" = Some (TranscriptFile (mkTranscript 2 JNull))
  ∧ "/out/2_data.txt" ∈ search_path "/out" [Regex.transcripts_reg] w'.
Proof.
  destruct (download_chunk_store reversing_env [1; 2] empty_world)
    as (H1 & _ & _ & H4).
  - vm_compute. reflexivity.
  - apply NoDup_ListNoDup. vm_compute.
    repeat (constructor; [intros Hin; vm_compute in Hin; intuition congruence|]).
    constructor.
  - split.
    + exact (H1 0%nat 1 (mkTranscript 2 JNull) eq_refl eq_refl).
    + destruct (H4 2) as [H _]; [right; by left | lia | exact H].
Defined.
